(** * Flashcard application: CSV parser, answer normaliser, shuffle and
      session bookkeeping

    Shallow embedding of [src/app/page.tsx] (the application,
    [FlashcardApp]) and of the parser of the single-screen version of the
    same application (the [Home] component of [src/unnamed/part_000]),
    together with the properties of the specification that concern them.

    Conventions of the embedding.
    - A JavaScript string is the list of its UTF-16 code units
      ([jsstring]); [text[i]] is list lookup and [text[i + 1]] past the end
      is [undefined], here [None].
    - A [for] loop over the characters of a string is a structural
      recursion over that list; the one place where the loop body advances
      the index by itself ([i++]) is a flag returned by the loop body.
    - An expression that would throw a [TypeError] ([row[0].trim()] on a
      missing field) yields [Throw]; a normal result is [Return].
    - [Record<number, number>] is a [gmap nat nat]; reading a missing key
      gives [undefined], here [None].
    - React state is one record; an event handler is a function on it.
    - A value of [Math.random()] is a double: a significand of at most 53
      bits over a power of two; the product with [i + 1] is the product of
      doubles, the exact product rounded to the nearest double. *)

From stdpp Require Import gmap list sorting strings.
From Stdlib Require Import QArith Qround.

Local Open Scope nat_scope.
Local Open Scope list_scope.

(** ** JavaScript strings *)

Abbreviation code_unit := N (only parsing).
Abbreviation jsstring := (list N) (only parsing).

Definition LF : code_unit := 10%N.
Definition CR : code_unit := 13%N.
Definition QUOTE : code_unit := 34%N.
Definition COMMA : code_unit := 44%N.

(** [WhiteSpace] and [LineTerminator] of ECMAScript: what [trim] strips and
    what the regular expression class [\s] matches. *)
Definition isWhiteSpace (c : code_unit) : bool :=
  ((9 <=? c) && (c <=? 13) || (c =? 32) || (c =? 160) || (c =? 5760)
   || (8192 <=? c) && (c <=? 8202) || (c =? 8232) || (c =? 8233)
   || (c =? 8239) || (c =? 8287) || (c =? 12288) || (c =? 65279))%N.

Fixpoint trimStart (s : jsstring) : jsstring :=
  match s with
  | [] => []
  | c :: s' => if isWhiteSpace c then trimStart s' else s
  end.

Definition trimEnd (s : jsstring) : jsstring := rev (trimStart (rev s)).

(** [String.prototype.trim] *)
Definition trim (s : jsstring) : jsstring := trimEnd (trimStart s).

(** [s.replace(/\s+/g, '')]: every maximal run of white space is replaced
    by the empty string, that is, every white-space code unit is deleted. *)
Definition removeWhiteSpace (s : jsstring) : jsstring :=
  filter (λ c, isWhiteSpace c = false) s.

(** ** Completions *)

Inductive exception := TypeError.

Inductive completion (A : Type) :=
| Return (a : A)
| Throw (e : exception).
Arguments Return {A} a.
Arguments Throw {A} e.

(** ** Data model *)

Record Card := mkCard {
  id : nat;
  question : jsstring;
  answer : jsstring
}.

Inductive GameMode := FLASHCARD | INPUT.
Inductive OrderType := SEQUENTIAL | RANDOM.

(** [limit: number | 'ALL']: [None] is ['ALL']. *)
Record GameSettings := mkSettings {
  mode : GameMode;
  order : OrderType;
  limit : option Z;
  startIndex : Z
}.

Record GameResult := mkResult {
  cardId : nat;
  isCorrect : bool;
  userAnswer : option jsstring
}.

Inductive Screen := MENU | SETUP | GAME | RESULT | WRONG_LIST.

Inductive Source := ALL | WRONG.

(** ** The CSV parser of the application ([parseCSV] in [page.tsx]) *)

Record scan_state := mkScan {
  rows : list (list jsstring);
  currentRow : list jsstring;
  currentCell : jsstring;
  insideQuotes : bool
}.

Definition scan_init : scan_state := mkScan [] [] [] false.

(** The test deciding whether a completed row is kept:
    [currentRow.length > 1 || (currentRow.length === 1 && currentRow[0] !== '')]. *)
Definition keepRow (row : list jsstring) : bool :=
  (1 <? length row)
  || ((length row =? 1) && negb (bool_decide (row !! 0 = Some []))).

(** The body of the scanning loop at one index: [char] is [text[i]],
    [nextChar] is [text[i + 1]].  The boolean tells whether the body
    executed [i++]. *)
Definition scan_step (st : scan_state) (char : code_unit)
    (nextChar : option code_unit) : scan_state * bool :=
  if (char =? QUOTE)%N then
    if insideQuotes st && bool_decide (nextChar = Some QUOTE) then
      (mkScan (rows st) (currentRow st) (currentCell st ++ [QUOTE])
              (insideQuotes st), true)
    else
      (mkScan (rows st) (currentRow st) (currentCell st)
              (negb (insideQuotes st)), false)
  else if (char =? COMMA)%N && negb (insideQuotes st) then
    (mkScan (rows st) (currentRow st ++ [currentCell st]) []
            (insideQuotes st), false)
  else if ((char =? CR)%N || (char =? LF)%N) && negb (insideQuotes st) then
    let skip := (char =? CR)%N && bool_decide (nextChar = Some LF) in
    let row := currentRow st ++ [currentCell st] in
    let rows' := if keepRow row then rows st ++ [row] else rows st in
    (mkScan rows' [] [] (insideQuotes st), skip)
  else
    (mkScan (rows st) (currentRow st) (currentCell st ++ [char])
            (insideQuotes st), false).

(** The scanning loop, from the current index to the end of the text. *)
Fixpoint scan (st : scan_state) (text : jsstring) : scan_state :=
  match text with
  | [] => st
  | char :: rest =>
      let '(st', skip) := scan_step st char (head rest) in
      match rest with
      | [] => st'
      | _ :: rest' => if skip then scan st' rest' else scan st' rest
      end
  end.

(** The flush after the loop:
    [if (currentCell || currentRow.length > 0) { ... }]. *)
Definition flush (st : scan_state) : list (list jsstring) :=
  if negb (bool_decide (currentCell st = [])) || (0 <? length (currentRow st))
  then rows st ++ [currentRow st ++ [currentCell st]]
  else rows st.

(** The value of [rows] when the second loop starts. *)
Definition parseRows (text : jsstring) : list (list jsstring) :=
  flush (scan scan_init text).

(** The second loop, [for (let i = 1; i < rows.length; i++)]: [pending] is
    the part of [rows] from index [i] on, [data] the records pushed so
    far. *)
Fixpoint data_loop (i : nat) (pending : list (list jsstring))
    (data : list Card) : completion (list Card) :=
  match pending with
  | [] => Return data
  | row :: pending' =>
      if 2 <=? length row then
        match row !! 0, row !! 1 with
        | Some r0, Some r1 =>
            data_loop (S i) pending' (data ++ [mkCard i (trim r0) (trim r1)])
        | _, _ => Throw TypeError
        end
      else data_loop (S i) pending' data
  end.

Definition parseCSV (text : jsstring) : completion (list Card) :=
  data_loop 1 (drop 1 (parseRows text)) [].

(** ** The CSV parser of the single-screen version ([parseCSV] of [Home]) *)

Module Home.

Definition keepRow (row : list jsstring) : bool :=
  (1 <? length row)
  || ((length row =? 1) && negb (bool_decide (row !! 0 = Some []))).

Definition scan_step (st : scan_state) (char : code_unit)
    (nextChar : option code_unit) : scan_state * bool :=
  if (char =? QUOTE)%N then
    if insideQuotes st && bool_decide (nextChar = Some QUOTE) then
      (mkScan (rows st) (currentRow st) (currentCell st ++ [QUOTE])
              (insideQuotes st), true)
    else
      (mkScan (rows st) (currentRow st) (currentCell st)
              (negb (insideQuotes st)), false)
  else if (char =? COMMA)%N && negb (insideQuotes st) then
    (mkScan (rows st) (currentRow st ++ [currentCell st]) []
            (insideQuotes st), false)
  else if ((char =? CR)%N || (char =? LF)%N) && negb (insideQuotes st) then
    let skip := (char =? CR)%N && bool_decide (nextChar = Some LF) in
    let row := currentRow st ++ [currentCell st] in
    let rows' := if keepRow row then rows st ++ [row] else rows st in
    (mkScan rows' [] [] (insideQuotes st), skip)
  else
    (mkScan (rows st) (currentRow st) (currentCell st ++ [char])
            (insideQuotes st), false).

Fixpoint scan (st : scan_state) (text : jsstring) : scan_state :=
  match text with
  | [] => st
  | char :: rest =>
      let '(st', skip) := scan_step st char (head rest) in
      match rest with
      | [] => st'
      | _ :: rest' => if skip then scan st' rest' else scan st' rest
      end
  end.

Definition flush (st : scan_state) : list (list jsstring) :=
  if negb (bool_decide (currentCell st = [])) || (0 <? length (currentRow st))
  then rows st ++ [currentRow st ++ [currentCell st]]
  else rows st.

Definition parseRows (text : jsstring) : list (list jsstring) :=
  flush (scan scan_init text).

Fixpoint data_loop (i : nat) (pending : list (list jsstring))
    (data : list Card) : completion (list Card) :=
  match pending with
  | [] => Return data
  | row :: pending' =>
      if 2 <=? length row then
        match row !! 0, row !! 1 with
        | Some r0, Some r1 =>
            data_loop (S i) pending' (data ++ [mkCard i (trim r0) (trim r1)])
        | _, _ => Throw TypeError
        end
      else data_loop (S i) pending' data
  end.

Definition parseCSV (text : jsstring) : completion (list Card) :=
  data_loop 1 (drop 1 (parseRows text)) [].

(** *** The rest of the [Home] component: its state and handlers *)

Record HomeState := mkHome {
  allCards : list Card;
  playCards : list Card;
  currentIndex : nat;
  showAnswer : bool;
  loading : bool;
  wrongIds : gset nat;
  isFinished : bool
}.

(** The state of the first render. *)
Definition initialState : HomeState := mkHome [] [] 0 false true ∅ false.

(** The two ends of [fetchCSV]: the [try] branch
    ([setAllCards(data); setPlayCards(data); setLoading(false)]) and the
    [catch] branch ([setLoading(false)]). *)
Definition fetched (data : list Card) (st : HomeState) : HomeState :=
  mkHome data data (currentIndex st) (showAnswer st) false (wrongIds st)
         (isFinished st).

Definition fetchFailed (st : HomeState) : HomeState :=
  mkHome (allCards st) (playCards st) (currentIndex st) (showAnswer st) false
         (wrongIds st) (isFinished st).

(** [currentIndex < playCards.length - 1], on integers. *)
Definition goNext (st : HomeState) : HomeState :=
  if currentIndex st + 1 <? length (playCards st)
  then mkHome (allCards st) (playCards st) (currentIndex st + 1) false
              (loading st) (wrongIds st) (isFinished st)
  else mkHome (allCards st) (playCards st) (currentIndex st) false
              (loading st) (wrongIds st) true.

(** [playCards[currentIndex].id] throws when the index is outside the
    list. *)
Definition handleCorrect (st : HomeState) : completion HomeState :=
  match playCards st !! currentIndex st with
  | None => Throw TypeError
  | Some card =>
      let currentCardId := id card in
      Return (goNext
        (if bool_decide (currentCardId ∈ wrongIds st)
         then mkHome (allCards st) (playCards st) (currentIndex st)
                     (showAnswer st) (loading st)
                     (wrongIds st ∖ {[currentCardId]}) (isFinished st)
         else st))
  end.

Definition handleWrong (st : HomeState) : completion HomeState :=
  match playCards st !! currentIndex st with
  | None => Throw TypeError
  | Some card =>
      let currentCardId := id card in
      Return (goNext
        (mkHome (allCards st) (playCards st) (currentIndex st)
                (showAnswer st) (loading st)
                (wrongIds st ∪ {[currentCardId]}) (isFinished st)))
  end.

Definition goBack (st : HomeState) : HomeState :=
  if 0 <? currentIndex st
  then mkHome (allCards st) (playCards st) (currentIndex st - 1) false
              (loading st) (wrongIds st) false
  else st.

Definition startRetry (st : HomeState) : HomeState :=
  let wrongCards := filter (λ card, id card ∈ wrongIds st) (allCards st) in
  mkHome (allCards st) wrongCards 0 false (loading st) (wrongIds st) false.

Definition resetAll (st : HomeState) : HomeState :=
  mkHome (allCards st) (allCards st) 0 false (loading st) ∅ false.

(** [setShowAnswer(true)] *)
Definition revealAnswer (st : HomeState) : HomeState :=
  mkHome (allCards st) (playCards st) (currentIndex st) true (loading st)
         (wrongIds st) (isFinished st).

(** Which of the four returns of the component renders. *)
Inductive View := LoadingView | NoDataView | FinishedView | CardView.

Definition view (st : HomeState) : View :=
  if loading st then LoadingView
  else if (length (playCards st) =? 0) && negb (isFinished st) then NoDataView
  else if isFinished st then FinishedView
  else CardView.

(** [const currentCard = playCards[currentIndex]], whose fields the card
    view reads. *)
Definition currentCard (st : HomeState) : option Card :=
  playCards st !! currentIndex st.

(** One user interaction or one end of the fetch.  The answer buttons
    exist once the answer is shown; the back button of the card view is
    disabled at index 0; the retry button exists when [wrongIds.size > 0]. *)
Inductive step : HomeState → HomeState → Prop :=
| step_fetched text data st :
    loading st = true → parseCSV text = Return data →
    step st (fetched data st)
| step_fetch_failed st :
    loading st = true → step st (fetchFailed st)
| step_reveal st :
    view st = CardView → showAnswer st = false → step st (revealAnswer st)
| step_correct st st' :
    view st = CardView → showAnswer st = true →
    handleCorrect st = Return st' → step st st'
| step_wrong st st' :
    view st = CardView → showAnswer st = true →
    handleWrong st = Return st' → step st st'
| step_back st :
    view st = CardView → currentIndex st ≠ 0 → step st (goBack st)
| step_finished_back st :
    view st = FinishedView → step st (goBack st)
| step_retry st :
    view st = FinishedView → size (wrongIds st) ≠ 0 → step st (startRetry st)
| step_reset st :
    view st = FinishedView → step st (resetAll st).

Definition reachable (st : HomeState) : Prop := rtc step initialState st.


End Home.

(** ** The answer normaliser ([normalizeString])

    [String.prototype.normalize] and [String.prototype.toLowerCase] belong
    to the JavaScript runtime, not to the application; the normaliser is
    parametrised by them. *)

Class UnicodeRuntime := {
  normalizeNFKC : jsstring → jsstring;
  toLowerCase : jsstring → jsstring
}.

(** [!str]: [None] stands for an absent argument ([undefined] or [null]),
    which the guard of [normalizeString] treats like the empty string. *)
Definition falsy (str : option jsstring) : bool :=
  match str with
  | None | Some [] => true
  | Some (_ :: _) => false
  end.

Definition normalizeString `{UnicodeRuntime} (str : option jsstring) : jsstring :=
  if falsy str then []
  else removeWhiteSpace (toLowerCase (normalizeNFKC (trim (default [] str)))).

(** What the Unicode Standard and ECMAScript say about the two built-ins
    on the characters the examples of the specification use. *)

Definition isASCII (c : code_unit) : bool := (c <? 128)%N.

Definition asciiLower (c : code_unit) : code_unit :=
  if ((65 <=? c) && (c <=? 90))%N then (c + 32)%N else c.

(** Half-width katakana letters U+FF66..U+FF9D and their compatibility
    decompositions (UnicodeData.txt). *)
Definition halfwidthKatakana : list (code_unit * code_unit) :=
  [(65382, 12530); (65383, 12449); (65384, 12451); (65385, 12453);
   (65386, 12455); (65387, 12457); (65388, 12515); (65389, 12517);
   (65390, 12519); (65391, 12483); (65392, 12540); (65393, 12450);
   (65394, 12452); (65395, 12454); (65396, 12456); (65397, 12458);
   (65398, 12459); (65399, 12461); (65400, 12463); (65401, 12465);
   (65402, 12467); (65403, 12469); (65404, 12471); (65405, 12473);
   (65406, 12475); (65407, 12477); (65408, 12479); (65409, 12481);
   (65410, 12484); (65411, 12486); (65412, 12488); (65413, 12490);
   (65414, 12491); (65415, 12492); (65416, 12493); (65417, 12494);
   (65418, 12495); (65419, 12498); (65420, 12501); (65421, 12504);
   (65422, 12507); (65423, 12510); (65424, 12511); (65425, 12512);
   (65426, 12513); (65427, 12514); (65428, 12516); (65429, 12518);
   (65430, 12520); (65431, 12521); (65432, 12522); (65433, 12523);
   (65434, 12524); (65435, 12525); (65436, 12527); (65437, 12531)]%N.

Fixpoint assoc (c : code_unit) (tbl : list (code_unit * code_unit))
    : option code_unit :=
  match tbl with
  | [] => None
  | (k, v) :: tbl' => if (c =? k)%N then Some v else assoc c tbl'
  end.

Definition widen (c : code_unit) : code_unit :=
  default c (assoc c halfwidthKatakana).

(** Katakana letters, full width (U+30A1..U+30FA) or half width. *)
Definition isKatakanaLetter (c : code_unit) : bool :=
  ((12449 <=? c) && (c <=? 12538) || (65382 <=? c) && (c <=? 65437))%N.

(** The katakana block U+30A1..U+30FF. *)
Definition isKatakana (c : code_unit) : bool :=
  ((12449 <=? c) && (c <=? 12543))%N.

Class UnicodeLaws (rt : UnicodeRuntime) : Prop := {
  nfkc_ascii : ∀ s, forallb isASCII s = true → normalizeNFKC s = s;
  lower_ascii : ∀ s, forallb isASCII s = true → toLowerCase s = map asciiLower s;
  nfkc_katakana :
    ∀ s, forallb isKatakanaLetter s = true → normalizeNFKC s = map widen s;
  lower_katakana : ∀ s, forallb isKatakana s = true → toLowerCase s = s
}.

(** Modelled from the Unicode Standard: a table-driven stand-in for the two
    built-ins of the runtime.  It agrees with them on strings of ASCII
    characters and katakana letters, and on the letter j or J followed by
    U+030C (combining caron): U+01F0 (small j with caron) decomposes into
    U+006A U+030C and has no capital counterpart, so NFKC composes the
    small pair and leaves the capital pair alone.  Other compositions and
    decompositions are not in the table. *)
Fixpoint composeCaron (s : jsstring) : jsstring :=
  match s with
  | [] => []
  | a :: tl =>
      match tl with
      | [] => [a]
      | b :: rest =>
          if ((a =? 106) && (b =? 780))%N then 496%N :: composeCaron rest
          else a :: composeCaron tl
      end
  end.

Definition tableNFKC (s : jsstring) : jsstring := composeCaron (map widen s).

Definition tableLower (s : jsstring) : jsstring := map asciiLower s.

Definition tableRuntime : UnicodeRuntime :=
  {| normalizeNFKC := tableNFKC; toLowerCase := tableLower |}.

(** ** The shuffle ([shuffleArray]) *)

(** A value returned by [Math.random()]: a double at least 0 and less
    than 1.  A double has a significand of 53 bits and an exponent of at
    least -1074, so these values are the numbers [significand / 2 ^ scale]
    with a significand below [2 ^ 53] and below [2 ^ scale], and a scale of
    at most 1074. *)
Definition isUnitDouble (m p : Z) : bool :=
  ((0 <=? m) && (m <? 2 ^ 53) && (m <? 2 ^ p) && (0 <=? p) && (p <=? 1074))%Z.

Record unit_interval := mkUnit {
  significand : Z;
  scale : Z;
  unit_double : isUnitDouble significand scale = true
}.


(** [a / 2 ^ s] rounded to the nearest integer, a tie going to the even
    one: the rounding of the arithmetic of doubles. *)
Definition roundHalfEven (a s : Z) : Z :=
  let d := (a / 2 ^ s)%Z in
  let rest := (a mod 2 ^ s)%Z in
  let half := (2 ^ (s - 1))%Z in
  if (rest <? half)%Z then d
  else if (half <? rest)%Z then (d + 1)%Z
  else if Z.even d then d else (d + 1)%Z.

(** The double [Math.random() * n] for a whole number [n], as a numerator
    over [2 ^ scale r].  The exact product is [a / 2 ^ scale r] with
    [a = significand r * n]; its leading bit is bit [Z.log2 a] of [a], and
    the result keeps 53 bits from there, but no bit below [2 ^ -1074]: it
    is the multiple of [2 ^ s / 2 ^ scale r] nearest to the exact product.
    The length of an array is below [2 ^ 32], so that [i + 1] is a double
    and the product is far from the largest double. *)
Definition timesDouble (r : unit_interval) (n : Z) : Z :=
  let a := (significand r * n)%Z in
  let s := Z.max (Z.log2 a - 52) (scale r - 1074) in
  if (s <=? 0)%Z then a else (roundHalfEven a s * 2 ^ s)%Z.

(** [Math.floor(Math.random() * (i + 1))], for the value [r] returned by
    [Math.random()]. *)
Definition randomIndex (r : unit_interval) (i : nat) : nat :=
  Z.to_nat (timesDouble r (Z.of_nat (i + 1)) / 2 ^ scale r).

(** [[newArr[i], newArr[j]] = [newArr[j], newArr[i]]].  Both indices are
    inside the array whenever the loop runs (see [randomIndex_le]); an
    index outside leaves the model of the array as it is. *)
Definition swap {T} (newArr : list T) (i j : nat) : list T :=
  match newArr !! i, newArr !! j with
  | Some ai, Some aj => <[j := ai]> (<[i := aj]> newArr)
  | _, _ => newArr
  end.

(** [for (let i = newArr.length - 1; i > 0; i--)]; [random k] is the value
    of the [k]-th call of [Math.random], [calls] the number of calls made
    so far. *)
Fixpoint shuffle_loop {T} (random : nat → unit_interval) (calls : nat) (i : nat)
    (newArr : list T) : list T :=
  match i with
  | 0 => newArr
  | S i' =>
      let j := randomIndex (random calls) i in
      shuffle_loop random (S calls) i' (swap newArr i j)
  end.

Definition shuffleArray {T} (random : nat → unit_interval) (array : list T) : list T :=
  shuffle_loop random 0 (length array - 1) array.

(** ** Application state and event handlers *)

(** [GameScreen]'s own state that matters for the results: [index] and
    [results]. *)
Record AppState := mkApp {
  allCards : list Card;
  loading : bool;
  currentScreen : Screen;
  wrongHistory : gmap nat nat;
  playQueue : list Card;
  gameResults : list GameResult;
  setupSource : Source;
  settings : GameSettings;
  index : nat;
  results : list GameResult
}.

(** The state of the first render. *)
Definition initialState : AppState :=
  mkApp [] true MENU ∅ [] [] ALL (mkSettings FLASHCARD SEQUENTIAL None 0) 0 [].

(** [wrongHistory[k] || 0] *)
Definition missCount (h : gmap nat nat) (k : nat) : nat := default 0 (h !! k).

(** [Array.prototype.slice(start, end)] for integer arguments; [end_] is
    [None] when the argument is omitted.  A negative argument counts from
    the end of the array. *)
Definition relativeIndex (len k : Z) : Z :=
  if (k <? 0)%Z then Z.max (len + k) 0 else Z.min k len.

Definition slice {T} (start : Z) (end_ : option Z) (l : list T) : list T :=
  let len := Z.of_nat (length l) in
  let k := relativeIndex len start in
  let final := match end_ with None => len | Some e => relativeIndex len e end in
  take (Z.to_nat (final - k)) (drop (Z.to_nat k) l).

(** The cards the selection starts from. *)
Definition sourceCards (st : AppState) : list Card :=
  match setupSource st with
  | ALL => allCards st
  | WRONG => filter (λ c, 0 < missCount (wrongHistory st) (id c)) (allCards st)
  end.

(** The value of [deck] when [handleStartGame] tests [deck.length === 0]. *)
Definition selectDeck (random : nat → unit_interval) (newSettings : GameSettings)
    (st : AppState) : list Card :=
  let deck := sourceCards st in
  let deck :=
    match order newSettings with
    | RANDOM => shuffleArray random deck
    | SEQUENTIAL =>
        if (0 <? startIndex newSettings)%Z
        then slice (startIndex newSettings) None deck
        else deck
    end in
  match limit newSettings with
  | Some n => slice 0 (Some n) deck
  | None => deck
  end.

Inductive effect := NoEffect | Alert.

Definition handleStartGame (random : nat → unit_interval) (newSettings : GameSettings)
    (st : AppState) : AppState * effect :=
  let st1 := mkApp (allCards st) (loading st) (currentScreen st)
                   (wrongHistory st) (playQueue st) (gameResults st)
                   (setupSource st) newSettings (index st) (results st) in
  let deck := selectDeck random newSettings st in
  if length deck =? 0 then (st1, Alert)
  else (mkApp (allCards st) (loading st) GAME (wrongHistory st) deck []
              (setupSource st) newSettings (index st) (results st), NoEffect).

(** The body of [results.forEach] in [handleGameFinish]. *)
Definition recordMiss (newHistory : gmap nat nat) (r : GameResult)
    : gmap nat nat :=
  if isCorrect r then newHistory
  else <[cardId r := missCount newHistory (cardId r) + 1]> newHistory.

Definition updateHistory (h : gmap nat nat) (res : list GameResult)
    : gmap nat nat :=
  foldl recordMiss h res.

Definition handleGameFinish (res : list GameResult) (st : AppState) : AppState :=
  mkApp (allCards st) (loading st) RESULT (updateHistory (wrongHistory st) res)
        (playQueue st) res (setupSource st) (settings st) (index st)
        (results st).

(** [goNext] of [GameScreen]; [inputVal] is the content of the answer box.
    [cards[index]] outside the queue is [undefined], and reading its [id]
    throws. *)
Definition goNext (correct : bool) (inputVal : jsstring) (st : AppState)
    : completion AppState :=
  match playQueue st !! index st with
  | None => Throw TypeError
  | Some currentCard =>
      let newResult :=
        mkResult (id currentCard) correct
                 (match mode (settings st) with
                  | INPUT => Some inputVal
                  | FLASHCARD => None
                  end) in
      let nextResults := results st ++ [newResult] in
      let st1 := mkApp (allCards st) (loading st) (currentScreen st)
                       (wrongHistory st) (playQueue st) (gameResults st)
                       (setupSource st) (settings st) (index st) nextResults in
      if index st + 1 <? length (playQueue st) then
        Return (mkApp (allCards st) (loading st) (currentScreen st)
                      (wrongHistory st) (playQueue st) (gameResults st)
                      (setupSource st) (settings st) (index st + 1) nextResults)
      else Return (handleGameFinish nextResults st1)
  end.

(** Navigation: [setScreen], and [setSetupSource] followed by
    [setScreen('SETUP')]. *)
Definition setScreen (s : Screen) (st : AppState) : AppState :=
  mkApp (allCards st) (loading st) s (wrongHistory st) (playQueue st)
        (gameResults st) (setupSource st) (settings st) (index st) (results st).

Definition openSetup (src : Source) (st : AppState) : AppState :=
  mkApp (allCards st) (loading st) SETUP (wrongHistory st) (playQueue st)
        (gameResults st) src (settings st) (index st) (results st).

(** The end of [fetchCSV]: [setAllCards(data); setLoading(false)]. *)
Definition cardsLoaded (data : list Card) (st : AppState) : AppState :=
  mkApp data false (currentScreen st) (wrongHistory st) (playQueue st)
        (gameResults st) (setupSource st) (settings st) (index st) (results st).

(** [GameScreen] is mounted when the screen becomes [GAME]: its state
    starts from [useState(0)] and [useState([])]. *)
Definition mountGame (st : AppState) : AppState :=
  mkApp (allCards st) (loading st) (currentScreen st) (wrongHistory st)
        (playQueue st) (gameResults st) (setupSource st) (settings st) 0 [].

(** One user interaction, or the completion of the initial fetch.  While
    [loading] holds only the text ["Loading..."] is rendered, so nothing
    can be clicked; each control exists only on its own screen.  The
    review buttons of the result screen and of the list of missed cards
    are shown only when there is something to review; leaving that
    condition out only adds transitions. *)
Inductive step : AppState → AppState → Prop :=
| step_loaded text data st :
    loading st = true →
    parseCSV text = Return data →
    step st (cardsLoaded data st)
| step_header st :
    loading st = false →
    step st (setScreen MENU st)
| step_start_all st :
    loading st = false → currentScreen st = MENU →
    step st (openSetup ALL st)
| step_start_wrong st :
    loading st = false → currentScreen st = MENU →
    size (wrongHistory st) ≠ 0 →
    step st (openSetup WRONG st)
| step_show_wrong_list st :
    loading st = false → currentScreen st = MENU →
    step st (setScreen WRONG_LIST st)
| step_setup_back st :
    loading st = false → currentScreen st = SETUP →
    step st (setScreen MENU st)
| step_start_game random newSettings st st' :
    loading st = false → currentScreen st = SETUP →
    handleStartGame random newSettings st = (st', NoEffect) →
    step st (mountGame st')
| step_start_refused random newSettings st st' :
    loading st = false → currentScreen st = SETUP →
    handleStartGame random newSettings st = (st', Alert) →
    step st st'
| step_go_next correct inputVal st st' :
    loading st = false → currentScreen st = GAME →
    goNext correct inputVal st = Return st' →
    step st st'
| step_game_back st :
    loading st = false → currentScreen st = GAME →
    step st (setScreen MENU st)
| step_retry_wrong st :
    loading st = false → currentScreen st = RESULT →
    step st (openSetup WRONG st)
| step_result_back st :
    loading st = false → currentScreen st = RESULT →
    step st (setScreen MENU st)
| step_list_back st :
    loading st = false → currentScreen st = WRONG_LIST →
    step st (setScreen MENU st)
| step_start_review st :
    loading st = false → currentScreen st = WRONG_LIST →
    step st (openSetup WRONG st).

Definition reachable (st : AppState) : Prop := rtc step initialState st.

(** The identifiers of a list of cards. *)
Definition ids (cards : list Card) : list nat := map id cards.

(** ** Definitions used to state the properties *)

(** An ASCII literal as a JavaScript string. *)
Definition js (s : string) : jsstring :=
  map Ascii.N_of_ascii (String.list_ascii_of_string s).

(** The retained rows with their 0-based position: the header is row 0. *)
Definition numbered (rs : list (list jsstring)) : list (nat * list jsstring) :=
  imap pair rs.

(** The record a numbered row stands for: none when the row has fewer than
    two fields; fields after the second are not looked at. *)
Definition record_of (p : nat * list jsstring) : option Card :=
  match p.2 with
  | r0 :: r1 :: _ => Some (mkCard p.1 (trim r0) (trim r1))
  | _ => None
  end.

(** The records of a row sequence, as the specification words them: leave
    the header out, then one record per row that has two fields, in row
    order. *)
Definition recordsOf (rs : list (list jsstring)) : list Card :=
  omap record_of (drop 1 (numbered rs)).

(** The number of incorrect results for card [k]. *)
Definition misses (k : nat) (res : list GameResult) : nat :=
  length (filter (λ r, isCorrect r = false ∧ cardId r = k) res).

(** A row that is kept is neither empty nor the single empty field of a
    blank line. *)
Definition properRow (row : list jsstring) : Prop := row ≠ [] ∧ row ≠ [[]].

(** The text of a field written between quotes: every quote of the content
    is doubled. *)
Definition escapeQuotes (w : jsstring) : jsstring :=
  flat_map (λ c, if (c =? QUOTE)%N then [QUOTE; QUOTE] else [c]) w.

(** The example text of the specification: a header line and one data
    line, each ended by a line feed. *)
Definition ringo : jsstring := [12426; 12435; 12372]%N.
Definition appleText : jsstring :=
  js "Q,A" ++ [LF] ++ js "Apple," ++ ringo ++ [LF].

(** The two quoted fields of the specification, as texts and as contents. *)
Definition multilineText : jsstring :=
  [QUOTE] ++ js "a,b" ++ [LF] ++ js "c" ++ [QUOTE].
Definition multilineContent : jsstring := js "a,b" ++ [LF] ++ js "c".

Definition saidText : jsstring :=
  [QUOTE] ++ js "he said " ++ [QUOTE; QUOTE] ++ js "hi" ++ [QUOTE; QUOTE; QUOTE].
Definition saidContent : jsstring :=
  js "he said " ++ [QUOTE] ++ js "hi" ++ [QUOTE].

(** The katakana example of the specification: ﾈｺ in half-width letters
    and ネコ in full-width letters. *)
Definition halfwidthNeko : jsstring := [65416; 65402]%N.
Definition fullwidthNeko : jsstring := [12493; 12467]%N.

(** The code units that ECMAScript counts as white space or as line
    terminators: tab, line feed, vertical tab, form feed, carriage return,
    space, no-break space, the space separators of Unicode, line and
    paragraph separator, and the byte order mark. *)
Definition whiteSpaceCodes : list code_unit :=
  [9; 10; 11; 12; 13; 32; 160; 5760; 8192; 8193; 8194; 8195; 8196; 8197;
   8198; 8199; 8200; 8201; 8202; 8232; 8233; 8239; 8287; 12288; 65279]%N.

(** A string that does not begin, or does not end, with white space. *)
Definition startsClean (s : jsstring) : Prop :=
  ∀ c, head s = Some c → isWhiteSpace c = false.
Definition endsClean (s : jsstring) : Prop :=
  ∀ c, last s = Some c → isWhiteSpace c = false.

(** A text whose data line has white space around its fields (spaces, a
    tab, an ideographic space) and a third field, followed by a line of
    one field and a blank line. *)
Definition paddedText : jsstring :=
  js "Q,A" ++ [LF] ++ [32; 9]%N ++ js "New York" ++ [12288; COMMA; 32]%N
  ++ ringo ++ [9; 32]%N ++ js ",more" ++ [LF] ++ js "short" ++ [LF; LF].

(** New York written with white space of several kinds before, inside and
    after. *)
Definition spacedYork : jsstring :=
  [9; 32]%N ++ js "New" ++ [32; 10; 9; 32]%N ++ js "York" ++ [13; 10]%N.

(** A constant random source, and a state whose card list is empty, as the
    application is when the file holds a header only. *)
Definition zeroRandom : nat → unit_interval :=
  λ _, mkUnit 0 1 eq_refl.

Definition emptyLoaded : AppState := openSetup ALL (cardsLoaded [] initialState).

(** Every stored count is positive. *)
Definition positiveCounts (h : gmap nat nat) : Prop :=
  ∀ k n, h !! k = Some n → 0 < n.

(** What holds of every state the application can be in. *)
Definition consistent (st : AppState) : Prop :=
  (loading st = true →
     wrongHistory st = ∅ ∧ playQueue st = [] ∧ results st = [])
  ∧ (∀ k, k ∈ dom (wrongHistory st) → k ∈ ids (allCards st))
  ∧ positiveCounts (wrongHistory st)
  ∧ playQueue st ⊆ allCards st
  ∧ Forall (λ r, cardId r ∈ ids (playQueue st)) (results st).

(** A run of the application: the example text is loaded, a sequential
    flash-card game over all cards is started, and its only card is
    answered wrongly. *)
Definition appleCards : list Card := [mkCard 1 (js "Apple") ringo].
Definition runLoaded : AppState := cardsLoaded appleCards initialState.
Definition runSetup : AppState := openSetup ALL runLoaded.
Definition runSettings : GameSettings := mkSettings FLASHCARD SEQUENTIAL None 0.
Definition runGame : AppState :=
  mountGame (handleStartGame zeroRandom runSettings runSetup).1.
Definition runMissed : AppState :=
  handleGameFinish [mkResult 1 false None]
    (mkApp appleCards false GAME ∅ appleCards [] ALL runSettings 0
           [mkResult 1 false None]).

(** A lower-case ASCII code unit: one that [asciiLower] leaves alone. *)
Definition isLowerASCII (c : code_unit) : Prop :=
  isASCII c = true ∧ asciiLower c = c.

(** ** Further parts of the application *)

(** [GameScreen]: the state of the typed-answer form and [checkInput]. *)
Module GameScreen.

Inductive InputResult := CORRECT | WRONG.

Record InputState := mkInput {
  inputVal : jsstring;
  showAnswer : bool;
  inputResult : option InputResult
}.

Definition checkInput `{UnicodeRuntime} (currentCard : Card) (st : InputState)
    : InputState :=
  match inputResult st with
  | Some _ => st
  | None =>
      let normalizedInput := normalizeString (Some (inputVal st)) in
      let normalizedAnswer := normalizeString (Some (answer currentCard)) in
      let isCorrect := bool_decide (normalizedInput = normalizedAnswer) in
      mkInput (inputVal st) true (Some (if isCorrect then CORRECT else WRONG))
  end.

(** [inputResult === 'CORRECT'], the argument the form passes to [goNext]. *)
Definition judgedCorrect (st : InputState) : bool :=
  match inputResult st with
  | Some CORRECT => true
  | _ => false
  end.

End GameScreen.

(** [MenuScreen]'s [wrongCount]: [Object.keys(props.wrongHistory).length]. *)
Definition menuWrongCount (st : AppState) : nat := size (wrongHistory st).

(** [WrongListScreen]'s [wrongCards]:
    [allCards.filter(c => wrongHistory[c.id] > 0)], where a missing key
    gives [undefined], which is not greater than 0. *)
Definition greaterThanZero (entry : option nat) : bool :=
  match entry with
  | Some n => 0 <? n
  | None => false
  end.

Definition wrongCards (st : AppState) : list Card :=
  filter (λ c, greaterThanZero (wrongHistory st !! id c) = true) (allCards st).

(** [ResultScreen]'s [correctCount] and [wrongCount]. *)
Definition correctCount (res : list GameResult) : nat :=
  length (filter (λ r, isCorrect r = true) res).

Definition resultWrongCount (res : list GameResult) : nat :=
  length res - correctCount res.

(** The answers of a game given one after the other: the successive calls
    of [goNext]. *)
Fixpoint play (answers : list (bool * jsstring)) (st : AppState)
    : completion AppState :=
  match answers with
  | [] => Return st
  | (correct, inputVal) :: answers' =>
      match goNext correct inputVal st with
      | Return st' => play answers' st'
      | Throw e => Throw e
      end
  end.

(** ** Further definitions used to state properties *)

(** A text cut at every occurrence of a separator. *)
Fixpoint splitOn (sep : code_unit) (s : jsstring) : list jsstring :=
  match s with
  | [] => [[]]
  | c :: s' =>
      if (c =? sep)%N then [] :: splitOn sep s'
      else match splitOn sep s' with
           | f :: fs => (c :: f) :: fs
           | [] => [[c]]
           end
  end.

(** The rows of a text read line by line and field by field: cut at line
    feeds, cut every line at commas, leave out the blank lines. *)
Definition plainRows (text : jsstring) : list (list jsstring) :=
  filter (λ row, row ≠ [[]]) (map (splitOn COMMA) (splitOn LF text)).

(** The lines of a text whose first line continues the field [cell] of the
    row [row]. *)
Definition joinFirst (row : list jsstring) (cell : jsstring)
    (lines : list jsstring) : list (list jsstring) :=
  match lines with
  | [] => []
  | l0 :: ls =>
      match splitOn COMMA l0 with
      | f0 :: fs => (row ++ (cell ++ f0) :: fs) :: map (splitOn COMMA) ls
      | [] => (row ++ [cell]) :: map (splitOn COMMA) ls
      end
  end.

(** A text with Windows line ends: every line feed becomes carriage
    return, line feed. *)
Definition toCRLF (text : jsstring) : jsstring :=
  flat_map (λ c, if (c =? LF)%N then [CR; LF] else [c]) text.

(** The results of a whole game: one per card of the queue, with the
    answers in order. *)
Definition resultsOf (md : GameMode) (cards : list Card)
    (answers : list (bool * jsstring)) : list GameResult :=
  zip_with (λ c a, mkResult (id c) a.1
                     (match md with INPUT => Some a.2 | FLASHCARD => None end))
           cards answers.

(** What holds of the play queue and of the results in every state the
    application can be in. *)
Definition consistentGame (st : AppState) : Prop :=
  NoDup (ids (allCards st))
  ∧ NoDup (ids (playQueue st))
  ∧ (currentScreen st = GAME →
       index st < length (playQueue st)
       ∧ map cardId (results st) = take (index st) (ids (playQueue st)))
  ∧ (currentScreen st = RESULT →
       map cardId (gameResults st) = ids (playQueue st)
       ∧ playQueue st ≠ []
       ∧ ∀ r, r ∈ gameResults st → isCorrect r = false →
              0 < missCount (wrongHistory st) (cardId r)).

(** What holds of every state the [Home] component can be in. *)
Definition consistentHome (st : Home.HomeState) : Prop :=
  (Home.loading st = true → st = Home.initialState)
  ∧ NoDup (ids (Home.allCards st))
  ∧ Home.playCards st ⊆ Home.allCards st
  ∧ (∀ k, k ∈ Home.wrongIds st → k ∈ ids (Home.allCards st))
  ∧ (Home.playCards st ≠ [] → Home.currentIndex st < length (Home.playCards st))
  ∧ (Home.isFinished st = true →
       Home.currentIndex st + 1 = length (Home.playCards st)).

(** A text without quote and without carriage return, and a text without
    quote. *)
Definition plainText (text : jsstring) : bool :=
  forallb (λ c, negb ((c =? QUOTE) || (c =? CR))%N) text.


(** Sample values: a second random source, a list of two cards, and states
    of the [Home] component after the example text was loaded, after its
    only card was marked wrong, and in front of two cards. *)
Definition eighthRandom : nat → unit_interval :=
  λ _, mkUnit 1 3 eq_refl.


Definition yorkCard : Card := mkCard 2 (js "City") (js "New York").
Definition twoCards : list Card := [mkCard 1 (js "Apple") ringo; yorkCard].

Definition homeLoaded : Home.HomeState :=
  Home.fetched appleCards Home.initialState.
Definition homeFinished : Home.HomeState :=
  Home.mkHome appleCards appleCards 0 false false {[1]} true.
Definition homeTwo : Home.HomeState :=
  Home.mkHome twoCards twoCards 0 true false ∅ false.

(** ** White space *)

Ltac bool_to_prop :=
  repeat (rewrite andb_true_iff || rewrite orb_true_iff);
  rewrite ?N.leb_le, ?N.ltb_lt, ?N.eqb_eq.

Lemma isWhiteSpace_codes c : isWhiteSpace c = true ↔ c ∈ whiteSpaceCodes.
Proof.
  unfold isWhiteSpace, whiteSpaceCodes. rewrite !elem_of_cons, elem_of_nil.
  bool_to_prop. lia.
Qed.

(** [trimStart] takes a prefix of white space away, and all of it. *)
Lemma trimStart_split s :
  ∃ pre, s = pre ++ trimStart s
         ∧ Forall (λ c, isWhiteSpace c = true) pre
         ∧ startsClean (trimStart s).
Proof.
  induction s as [|c s (pre & Heq & Hpre & Hclean)]; [by exists []|].
  cbn [trimStart]. destruct (isWhiteSpace c) eqn:Hc.
  - exists (c :: pre). split; [cbn; by rewrite <- Heq|].
    split; [by constructor|done].
  - exists []. split; [done|]. split; [constructor|].
    intros d [= <-]. done.
Qed.

Lemma last_rev_head {A} (l : list A) : last (rev l) = head l.
Proof. destruct l as [|a l]; [done|]. cbn [rev]. apply last_snoc. Qed.

(** [trim] takes white space away at both ends, and all of it: what is
    left neither begins nor ends with white space. *)
Lemma trim_split s :
  ∃ pre post, s = pre ++ trim s ++ post
    ∧ Forall (λ c, isWhiteSpace c = true) pre
    ∧ Forall (λ c, isWhiteSpace c = true) post
    ∧ startsClean (trim s) ∧ endsClean (trim s).
Proof.
  destruct (trimStart_split s) as (pre & Hs & Hpre & Hhead).
  destruct (trimStart_split (rev (trimStart s))) as (post & Ht & Hpost & Hlast).
  exists pre, (rev post). unfold trim, trimEnd.
  assert (Hmid : trimStart s = rev (trimStart (rev (trimStart s))) ++ rev post).
  { rewrite <- rev_app_distr, <- Ht. by rewrite rev_involutive. }
  split; [by rewrite <- Hmid|].
  split; [done|]. split; [by apply Forall_rev|]. split.
  - intros c Hc. apply Hhead. rewrite Hmid.
    destruct (rev (trimStart (rev (trimStart s)))); [done|exact Hc].
  - intros c Hc. apply Hlast. by rewrite <- last_rev_head.
Qed.

Lemma trim_clean s : startsClean (trim s) ∧ endsClean (trim s).
Proof. by destruct (trim_split s) as (_ & _ & _ & _ & _ & Hclean). Qed.

(** [removeWhiteSpace] goes through the string and leaves out the white
    space, nothing else. *)
Lemma removeWhiteSpace_cons c s :
  removeWhiteSpace (c :: s)
  = if isWhiteSpace c then removeWhiteSpace s else c :: removeWhiteSpace s.
Proof.
  unfold removeWhiteSpace. rewrite filter_cons.
  by destruct (isWhiteSpace c); [rewrite decide_False|rewrite decide_True].
Qed.

(** ** The parser: scanning *)

Lemma scan_cons st char rest :
  scan st (char :: rest) =
  scan (scan_step st char (head rest)).1
       (if (scan_step st char (head rest)).2 then tail rest else rest).
Proof.
  cbn [scan]. destruct (scan_step st char (head rest)) as [st' skip].
  destruct rest as [|n rest']; cbn [fst snd tail].
  - by destruct skip.
  - by destruct skip.
Qed.

(** Whatever every loop body preserves holds when the loop ends. *)
Lemma scan_invariant (P : scan_state → Prop) :
  (∀ st char nextChar, P st → P (scan_step st char nextChar).1) →
  ∀ text st, P st → P (scan st text).
Proof.
  intros Hstep text.
  remember (length text) as n eqn:Hn. revert text Hn.
  induction n as [n IH] using lt_wf_ind. intros text Hn st Hst.
  destruct text as [|char rest]; [done|].
  rewrite scan_cons.
  destruct (scan_step st char (head rest)).2 eqn:Hskip.
  - eapply (IH (length (tail rest))); [|done|by apply Hstep].
    subst n. destruct rest; simpl; lia.
  - eapply (IH (length rest)); [|done|by apply Hstep].
    subst n. simpl; lia.
Qed.

Lemma keepRow_proper row : keepRow row = true → properRow row.
Proof.
  unfold keepRow, properRow. destruct row as [|f [|g row]]; cbn; [done| |done].
  case_bool_decide as Hf; [done|]. intros _. split; [done|].
  intros [= ->]. by apply Hf.
Qed.

Lemma scan_step_rows st char nextChar :
  Forall properRow (rows st) →
  Forall properRow (rows (scan_step st char nextChar).1).
Proof.
  intros Hrows. unfold scan_step.
  repeat (case_match; cbn [fst rows]); try done.
  apply Forall_app; split; [done|].
  apply Forall_singleton. by apply keepRow_proper.
Qed.

Lemma parseRows_proper text : Forall properRow (parseRows text).
Proof.
  unfold parseRows, flush.
  pose proof (scan_invariant (λ st, Forall properRow (rows st))
                scan_step_rows text scan_init) as Hscan.
  specialize (Hscan (Forall_nil_2 _)).
  destruct (scan scan_init text) as [rs row cell q]; cbn in *.
  case_bool_decide as Hcell; cbn.
  - subst cell. destruct row as [|f row]; cbn; [done|].
    apply Forall_app; split; [done|]. apply Forall_singleton.
    split; [done|]. destruct row; done.
  - apply Forall_app; split; [done|]. apply Forall_singleton.
    split; [by destruct row|].
    destruct row as [|f row]; cbn; [congruence|by destruct row].
Qed.

(** ** The parser: building the records *)

Lemma data_loop_records pending : ∀ i data,
  data_loop i pending data =
  Return (data ++ omap record_of (imap (λ k row, (i + k, row)) pending)).
Proof.
  induction pending as [|row pending IH]; intros i data.
  - cbn. by rewrite app_nil_r.
  - cbn [data_loop imap omap list_omap].
    assert (Hshift : imap ((λ k r, (i + k, r)) ∘ S) pending
                     = imap (λ k r, (S i + k, r)) pending).
    { apply imap_ext. intros k r _. cbn. f_equal. lia. }
    rewrite Hshift. unfold record_of at 1. cbn [fst snd].
    replace (i + 0) with i by lia.
    destruct row as [|r0 [|r1 more]]; cbn.
    + apply IH.
    + apply IH.
    + rewrite IH. by rewrite <- app_assoc.
Qed.

Lemma numbered_drop_1 rs :
  drop 1 (numbered rs) = imap (λ k row, (1 + k, row)) (drop 1 rs).
Proof. unfold numbered. destruct rs as [|r rs]; [done|]. cbn. by rewrite drop_0. Qed.

Lemma parseCSV_records text :
  parseCSV text = Return (recordsOf (parseRows text)).
Proof.
  unfold parseCSV, recordsOf. rewrite data_loop_records, numbered_drop_1. done.
Qed.

Lemma numbered_lookup rs k p :
  numbered rs !! k = Some p ↔ p.1 = k ∧ rs !! k = Some p.2.
Proof.
  unfold numbered. rewrite list_lookup_imap. destruct (rs !! k) as [row|]; cbn.
  - destruct p as [i r]; cbn. split.
    + by intros [= <- <-].
    + by intros [<- [= <-]].
  - split; [done|]. by intros [_ ?].
Qed.

(** Membership in the records of a row sequence. *)
Lemma elem_of_recordsOf rs c :
  c ∈ recordsOf rs ↔
  ∃ i r0 r1 more, 1 ≤ i ∧ rs !! i = Some (r0 :: r1 :: more)
                  ∧ c = mkCard i (trim r0) (trim r1).
Proof.
  unfold recordsOf. rewrite list_elem_of_omap. split.
  - intros ([i row] & Hin & Hrec).
    apply list_elem_of_lookup in Hin as [k Hk].
    rewrite lookup_drop in Hk. apply numbered_lookup in Hk as [Hi Hrow].
    cbn in Hi, Hrow. unfold record_of in Hrec. cbn in Hrec.
    destruct row as [|r0 [|r1 more]]; try done.
    injection Hrec as <-. exists i, r0, r1, more. split; [lia|]. split; [|done].
    by subst i.
  - intros (i & r0 & r1 & more & Hi & Hrow & ->).
    exists (i, r0 :: r1 :: more). split; [|done].
    apply list_elem_of_lookup. exists (i - 1).
    rewrite lookup_drop. apply numbered_lookup. cbn [fst snd].
    split; [lia|]. by replace (1 + (i - 1)) with i by lia.
Qed.

Lemma records_sorted pending : ∀ i,
  StronglySorted lt (ids (omap record_of (imap (λ k row, (i + k, row)) pending)))
  ∧ Forall (λ n, i ≤ n) (ids (omap record_of (imap (λ k row, (i + k, row)) pending))).
Proof.
  induction pending as [|row pending IH]; intros i.
  - cbn. split; constructor.
  - cbn [imap omap list_omap].
    assert (Hshift : imap ((λ k r, (i + k, r)) ∘ S) pending
                     = imap (λ k r, (S i + k, r)) pending).
    { apply imap_ext. intros k r _. cbn. f_equal. lia. }
    rewrite Hshift. destruct (IH (S i)) as [Hsorted Hlow].
    assert (Hlow' : Forall (λ n, i ≤ n)
              (ids (omap record_of (imap (λ k r, (S i + k, r)) pending)))).
    { eapply Forall_impl; [exact Hlow|]. cbn. lia. }
    destruct (record_of (i + 0, row)) as [c|] eqn:Hc; [|by split].
    unfold record_of in Hc. cbn [fst snd] in Hc.
    destruct row as [|r0 [|r1 more]]; try done. injection Hc as <-.
    cbn [ids map id]. split.
    + constructor; [done|]. eapply Forall_impl; [exact Hlow|]. cbn. lia.
    + constructor; [lia|done].
Qed.

Lemma recordsOf_sorted rs : StronglySorted lt (ids (recordsOf rs)).
Proof. unfold recordsOf. rewrite numbered_drop_1. apply records_sorted. Qed.

Lemma sorted_lt_NoDup (l : list nat) : StronglySorted lt l → NoDup l.
Proof.
  induction 1 as [|n l _ IH Hall]; constructor; [|done].
  intros Hin. rewrite Forall_forall in Hall. specialize (Hall _ Hin). lia.
Qed.

Lemma recordsOf_first header r0 r1 more rest :
  recordsOf (header :: (r0 :: r1 :: more) :: rest) !! 0
  = Some (mkCard 1 (trim r0) (trim r1)).
Proof. done. Qed.

(** C1 (as amended): parse keeps the records in row order and gives each
    record the 0-based position of its row in the sequence of retained
    rows, the header being row 0, so the first data row receives
    identifier 1; on the example text it yields exactly the record
    [{id: 1, question: "Apple", answer: "りんご"}]. *)
Theorem parseCSV_ids_are_row_positions :
  (∀ text, ∃ data,
      parseCSV text = Return data
      ∧ StronglySorted lt (ids data)
      ∧ ∀ c, c ∈ data →
             ∃ r0 r1 more, 1 ≤ id c
               ∧ parseRows text !! id c = Some (r0 :: r1 :: more)
               ∧ question c = trim r0 ∧ answer c = trim r1)
  ∧ parseCSV appleText = Return [mkCard 1 (js "Apple") ringo].
Proof.
  split; [|by vm_compute].
  intros text. exists (recordsOf (parseRows text)).
  split; [apply parseCSV_records|]. split; [apply recordsOf_sorted|].
  intros c (i & r0 & r1 & more & Hi & Hrow & ->)%elem_of_recordsOf.
  by exists r0, r1, more.
Qed.

(** C1, as stated, fails on its own example: the record of the first data
    row carries identifier 1, not 2. *)
Lemma parseCSV_first_id_not_2 :
  parseCSV appleText ≠ Return [mkCard 2 (js "Apple") ringo].
Proof. by vm_compute. Qed.

(** C2: every record's identifier is the 1-based offset of its row among
    the retained rows after the header, so the first data row receives
    identifier 1; the identifiers of one result are pairwise distinct. *)
Theorem parseCSV_ids_offset_and_distinct text :
  ∃ data,
    parseCSV text = Return data
    ∧ NoDup (ids data)
    ∧ (∀ c, c ∈ data →
         ∃ k r0 r1 more,
           drop 1 (parseRows text) !! k = Some (r0 :: r1 :: more)
           ∧ c = mkCard (k + 1) (trim r0) (trim r1))
    ∧ (∀ r0 r1 more,
         drop 1 (parseRows text) !! 0 = Some (r0 :: r1 :: more) →
         data !! 0 = Some (mkCard 1 (trim r0) (trim r1))).
Proof.
  exists (recordsOf (parseRows text)).
  split; [apply parseCSV_records|].
  split; [apply sorted_lt_NoDup, recordsOf_sorted|]. split.
  - intros c (i & r0 & r1 & more & Hi & Hrow & ->)%elem_of_recordsOf.
    exists (i - 1), r0, r1, more. rewrite lookup_drop.
    replace (1 + (i - 1)) with i by lia. split; [done|].
    by replace (i - 1 + 1) with i by lia.
  - intros r0 r1 more Hfirst.
    destruct (parseRows text) as [|header [|row rest]]; try done.
    cbn in Hfirst. injection Hfirst as ->. apply recordsOf_first.
Qed.

(** C4: parse never throws; its records are exactly those of the retained
    rows after the header that have two fields or more, one record per
    such row, made of the trimmed first and second field; rows with fewer
    fields give nothing; and no retained row is the single empty field of
    a blank line: a line break met with nothing accumulated leaves the
    rows as they are.  Trimming takes away a run of white space at the
    beginning and one at the end, and leaves a string that neither begins
    nor ends with white space, so no question and no answer of a record
    does; white space is the code units of [whiteSpaceCodes].  The padded
    example gives one record, with the white space inside New York
    kept. *)
Theorem parseCSV_never_throws_and_drops_short_rows :
  (∀ text, ∃ data,
      parseCSV text = Return data
      ∧ (∀ c, c ∈ data ↔
           ∃ i r0 r1 more, 1 ≤ i
             ∧ parseRows text !! i = Some (r0 :: r1 :: more)
             ∧ c = mkCard i (trim r0) (trim r1))
      ∧ length data
        = length (filter (λ row, 2 ≤ length row) (drop 1 (parseRows text)))
      ∧ (∀ row, row ∈ parseRows text → row ≠ [[]]))
  ∧ (∀ rs nextChar,
       (scan_step (mkScan rs [] [] false) LF nextChar).1 = mkScan rs [] [] false
       ∧ (scan_step (mkScan rs [] [] false) CR nextChar).1 = mkScan rs [] [] false)
  ∧ (∀ s, ∃ pre post,
       s = pre ++ trim s ++ post
       ∧ Forall (λ c, isWhiteSpace c = true) pre
       ∧ Forall (λ c, isWhiteSpace c = true) post
       ∧ startsClean (trim s) ∧ endsClean (trim s))
  ∧ (∀ c, isWhiteSpace c = true ↔ c ∈ whiteSpaceCodes)
  ∧ (∀ text data c,
       parseCSV text = Return data → c ∈ data →
       startsClean (question c) ∧ endsClean (question c)
       ∧ startsClean (answer c) ∧ endsClean (answer c))
  ∧ parseCSV paddedText = Return [mkCard 1 (js "New York") ringo].
Proof.
  split; [|split; [done|split; [apply trim_split|split;
            [apply isWhiteSpace_codes|split; [|by vm_compute]]]]].
  2: { intros text data c Hdata Hc. rewrite parseCSV_records in Hdata.
       injection Hdata as <-.
       apply elem_of_recordsOf in Hc as (i & r0 & r1 & more & _ & _ & ->).
       cbn [question answer].
       destruct (trim_clean r0), (trim_clean r1). done. }
  intros text. exists (recordsOf (parseRows text)).
  split; [apply parseCSV_records|].
  split; [intros c; apply elem_of_recordsOf|]. split.
  - unfold recordsOf. rewrite numbered_drop_1.
    generalize 1 at 1. induction (drop 1 (parseRows text)) as [|row pending IH];
      intros i; [done|].
    cbn [imap omap list_omap].
    assert (Hshift : imap ((λ k r, (i + k, r)) ∘ S) pending
                     = imap (λ k r, (S i + k, r)) pending).
    { apply imap_ext. intros k r _. cbn. f_equal. lia. }
    rewrite Hshift, filter_cons. unfold record_of at 1. cbn [fst snd].
    destruct row as [|r0 [|r1 more]]; cbn [length].
    + rewrite decide_False by lia. apply IH.
    + rewrite decide_False by lia. apply IH.
    + rewrite decide_True by lia. cbn [length]. f_equal. apply (IH (S i)).
  - intros row Hrow. pose proof (parseRows_proper text) as Hall.
    rewrite Forall_forall in Hall. by apply Hall.
Qed.

(** ** The parser: quoted fields *)

Lemma scan_open_quote rs row cell text :
  scan (mkScan rs row cell false) (QUOTE :: text)
  = scan (mkScan rs row cell true) text.
Proof. by rewrite scan_cons. Qed.

Lemma scan_doubled_quote rs row cell rest :
  scan (mkScan rs row cell true) (QUOTE :: QUOTE :: rest)
  = scan (mkScan rs row (cell ++ [QUOTE]) true) rest.
Proof. by rewrite scan_cons. Qed.

Lemma scan_inside_literal rs row cell c rest :
  c ≠ QUOTE →
  scan (mkScan rs row cell true) (c :: rest)
  = scan (mkScan rs row (cell ++ [c]) true) rest.
Proof.
  intros Hc. rewrite scan_cons. unfold scan_step. cbn [insideQuotes negb].
  apply N.eqb_neq in Hc. rewrite Hc, !andb_false_r. done.
Qed.

Lemma scan_close_quote rs row cell rest :
  head rest ≠ Some QUOTE →
  scan (mkScan rs row cell true) (QUOTE :: rest)
  = scan (mkScan rs row cell false) rest.
Proof.
  intros Hnext. rewrite scan_cons. unfold scan_step. cbn.
  by rewrite bool_decide_eq_false_2.
Qed.

(** A field written between quotes, whatever its content, adds exactly that
    content to the current field. *)
Lemma scan_quoted_field w : ∀ rs row cell rest,
  head rest ≠ Some QUOTE →
  scan (mkScan rs row cell false) (QUOTE :: escapeQuotes w ++ QUOTE :: rest)
  = scan (mkScan rs row (cell ++ w) false) rest.
Proof.
  intros rs row cell rest Hnext. rewrite scan_open_quote.
  revert cell. induction w as [|c w IH]; intros cell.
  - cbn. rewrite app_nil_r. by apply scan_close_quote.
  - unfold escapeQuotes. cbn [flat_map]. fold (escapeQuotes w).
    destruct (c =? QUOTE)%N eqn:Hc.
    + apply N.eqb_eq in Hc as ->. cbn [app].
      rewrite scan_doubled_quote, IH. by rewrite <- app_assoc.
    + apply N.eqb_neq in Hc. cbn [app].
      rewrite scan_inside_literal by done. rewrite IH. by rewrite <- app_assoc.
Qed.

(** C3: inside a quoted field a comma, a carriage return and a line feed
    are appended to the current field; a quote followed by a quote appends
    one quote and the scan resumes after the second one; hence a field
    written between quotes, with the quotes of its content doubled, adds
    exactly its content to the current field; the two examples of the
    specification parse to one row of one field with the stated
    content. *)
Theorem quoted_field_is_literal :
  (∀ rs row cell rest,
      scan (mkScan rs row cell true) (COMMA :: rest)
      = scan (mkScan rs row (cell ++ [COMMA]) true) rest
      ∧ scan (mkScan rs row cell true) (CR :: rest)
        = scan (mkScan rs row (cell ++ [CR]) true) rest
      ∧ scan (mkScan rs row cell true) (LF :: rest)
        = scan (mkScan rs row (cell ++ [LF]) true) rest
      ∧ scan (mkScan rs row cell true) (QUOTE :: QUOTE :: rest)
        = scan (mkScan rs row (cell ++ [QUOTE]) true) rest)
  ∧ (∀ w rs row cell rest,
       head rest ≠ Some QUOTE →
       scan (mkScan rs row cell false) (QUOTE :: escapeQuotes w ++ QUOTE :: rest)
       = scan (mkScan rs row (cell ++ w) false) rest)
  ∧ parseRows multilineText = [[multilineContent]]
  ∧ parseRows saidText = [[saidContent]].
Proof.
  split; [|split; [intros; by apply scan_quoted_field|split; by vm_compute]].
  intros rs row cell rest.
  rewrite !scan_inside_literal by done. by rewrite scan_doubled_quote.
Qed.

(** ** The two versions of the parser *)

Lemma Home_scan_step st char nextChar :
  Home.scan_step st char nextChar = scan_step st char nextChar.
Proof. done. Qed.

Lemma Home_scan text : ∀ st, Home.scan st text = scan st text.
Proof.
  remember (length text) as n eqn:Hn. revert text Hn.
  induction n as [n IH] using lt_wf_ind. intros text Hn st.
  destruct text as [|char rest]; [done|].
  cbn [Home.scan scan]. rewrite Home_scan_step.
  destruct (scan_step st char (head rest)) as [st' skip].
  destruct rest as [|next rest']; [done|].
  destruct skip.
  - apply (IH (length rest')); [subst n; cbn; lia|done].
  - apply (IH (length (next :: rest'))); [subst n; cbn; lia|done].
Qed.

Lemma Home_parseRows text : Home.parseRows text = parseRows text.
Proof. unfold Home.parseRows, parseRows. by rewrite Home_scan. Qed.

Lemma Home_data_loop pending : ∀ i data,
  Home.data_loop i pending data = data_loop i pending data.
Proof.
  induction pending as [|row pending IH]; intros i data; [done|].
  cbn [Home.data_loop data_loop]. rewrite !IH. done.
Qed.

(** C10: the parser of the application and the parser of the single-screen
    version return the same records for every text. *)
Theorem parseCSV_versions_agree text :
  ∃ data, parseCSV text = Return data ∧ Home.parseCSV text = Return data.
Proof.
  exists (recordsOf (parseRows text)). split; [apply parseCSV_records|].
  unfold Home.parseCSV. rewrite Home_parseRows, Home_data_loop.
  apply parseCSV_records.
Qed.

(** ** The normaliser *)

Lemma removeWhiteSpace_clean s :
  Forall (λ c, isWhiteSpace c = false) (removeWhiteSpace s).
Proof.
  unfold removeWhiteSpace. apply Forall_forall. intros c Hc.
  by apply list_elem_of_filter in Hc as [Hc _].
Qed.

Lemma removeWhiteSpace_id s :
  Forall (λ c, isWhiteSpace c = false) s → removeWhiteSpace s = s.
Proof.
  unfold removeWhiteSpace. induction 1 as [|c s Hc _ IH]; [done|].
  rewrite filter_cons_True by done. by rewrite IH.
Qed.

Lemma trimStart_id s :
  Forall (λ c, isWhiteSpace c = false) s → trimStart s = s.
Proof. destruct 1 as [|c s Hc _]; [done|]. cbn. by rewrite Hc. Qed.

Lemma trim_id s : Forall (λ c, isWhiteSpace c = false) s → trim s = s.
Proof.
  intros Hs. unfold trim, trimEnd. rewrite (trimStart_id s Hs).
  rewrite trimStart_id; [apply rev_involutive|].
  apply Forall_forall. intros c Hc. rewrite Forall_forall in Hs.
  apply Hs. apply list_elem_of_In. apply in_rev. by apply list_elem_of_In.
Qed.

Lemma normalizeString_clean `{UnicodeRuntime} str :
  Forall (λ c, isWhiteSpace c = false) (normalizeString str).
Proof.
  unfold normalizeString. destruct (falsy str); [constructor|].
  apply removeWhiteSpace_clean.
Qed.

(** The table-driven runtime satisfies the laws. *)

Lemma assoc_elem_of c v tbl : assoc c tbl = Some v → (c, v) ∈ tbl.
Proof.
  induction tbl as [|[k w] tbl IH]; cbn; [done|].
  destruct (c =? k)%N eqn:Hk.
  - apply N.eqb_eq in Hk as ->. intros [= ->]. left.
  - intros Hv. right. by apply IH.
Qed.

Lemma halfwidthKatakana_range c v :
  (c, v) ∈ halfwidthKatakana →
  (65382 ≤ c ≤ 65437 ∧ 12449 ≤ v ≤ 12540)%N.
Proof.
  intros Hin.
  assert (Hall : Forall (λ p, (65382 ≤ p.1 ≤ 65437 ∧ 12449 ≤ p.2 ≤ 12540)%N)
                   halfwidthKatakana).
  { unfold halfwidthKatakana. repeat (constructor; [cbn; lia|]). constructor. }
  rewrite Forall_forall in Hall. apply (Hall _ Hin).
Qed.

Lemma widen_outside c : (c < 65382)%N → widen c = c.
Proof.
  intros Hc. unfold widen. destruct (assoc c halfwidthKatakana) as [v|] eqn:Hv; [|done].
  apply assoc_elem_of, halfwidthKatakana_range in Hv. lia.
Qed.

Lemma widen_not_caron c : c ≠ 780%N → widen c ≠ 780%N.
Proof.
  intros Hc. unfold widen. destruct (assoc c halfwidthKatakana) as [v|] eqn:Hv; [|done].
  apply assoc_elem_of, halfwidthKatakana_range in Hv. cbn. lia.
Qed.

Lemma composeCaron_id s : Forall (λ c, c ≠ 780%N) s → composeCaron s = s.
Proof.
  induction 1 as [|a tl Ha Htl IH]; [done|].
  destruct Htl as [|b rest Hb Hrest]; [done|].
  cbn [composeCaron] in *. apply N.eqb_neq in Hb. rewrite Hb, andb_false_r.
  by rewrite IH.
Qed.

Lemma tableNFKC_widen s : Forall (λ c, c ≠ 780%N) s → tableNFKC s = map widen s.
Proof.
  intros Hs. unfold tableNFKC. apply composeCaron_id.
  apply Forall_map. eapply Forall_impl; [exact Hs|]. apply widen_not_caron.
Qed.

Lemma forallb_Forall {A} (f : A → bool) (P : A → Prop) l :
  (∀ x, f x = true → P x) → forallb f l = true → Forall P l.
Proof.
  intros Hf. induction l as [|x l IH]; cbn; [constructor|].
  intros [Hx Hl]%andb_true_iff. constructor; [by apply Hf|by apply IH].
Qed.

Lemma tableRuntime_laws : UnicodeLaws tableRuntime.
Proof.
  split; cbn [normalizeNFKC toLowerCase tableRuntime].
  - intros s Hs.
    assert (Hlow : Forall (λ c, (c < 128)%N) s).
    { eapply forallb_Forall; [|exact Hs]. intros c. unfold isASCII. bool_to_prop. lia. }
    rewrite tableNFKC_widen.
    + rewrite <- (map_id s) at 2. apply map_ext_in. intros c Hc.
      rewrite Forall_forall in Hlow. apply widen_outside.
      apply list_elem_of_In, Hlow in Hc. lia.
    + eapply Forall_impl; [exact Hlow|]. cbn. lia.
  - done.
  - intros s Hs. apply tableNFKC_widen.
    eapply forallb_Forall; [|exact Hs]. intros c. unfold isKatakanaLetter. bool_to_prop. lia.
  - intros s Hs. unfold tableLower. rewrite <- (map_id s) at 2.
    apply map_ext_in. intros c Hc.
    assert (Hall : Forall (λ c, (12449 ≤ c)%N) s).
    { eapply forallb_Forall; [|exact Hs]. intros d. unfold isKatakana. bool_to_prop. lia. }
    rewrite Forall_forall in Hall. apply list_elem_of_In, Hall in Hc.
    unfold asciiLower. destruct (c <=? 90)%N eqn:H2; [|by rewrite andb_false_r].
    apply N.leb_le in H2. lia.
Qed.

(** On ASCII strings the normaliser deletes the white space and makes
    capital letters small. *)

Lemma Forall_forallb {A} (f : A → bool) (P : A → Prop) l :
  (∀ x, P x → f x = true) → Forall P l → forallb f l = true.
Proof.
  intros Hf. induction 1 as [|x l Hx _ IH]; [done|].
  cbn. by rewrite (Hf x Hx), IH.
Qed.

Lemma Forall_trimStart (P : N → Prop) s : Forall P s → Forall P (trimStart s).
Proof.
  induction 1 as [|c s Hc Hs IH]; [done|]. cbn.
  destruct (isWhiteSpace c); [done|by constructor].
Qed.

Lemma Forall_trim (P : N → Prop) s : Forall P s → Forall P (trim s).
Proof.
  intros Hs. unfold trim, trimEnd.
  by apply Forall_rev, Forall_trimStart, Forall_rev, Forall_trimStart.
Qed.

Lemma normalizeString_ascii {rt : UnicodeRuntime} {laws : UnicodeLaws rt} s :
  forallb isASCII s = true →
  normalizeString (Some s) = removeWhiteSpace (map asciiLower (trim s)).
Proof.
  intros Hs. destruct s as [|c s]; [done|].
  unfold normalizeString. cbn [falsy from_option].
  change (trim _) with (trim (c :: s)).
  assert (Htrim : forallb isASCII (trim (c :: s)) = true).
  { apply (Forall_forallb _ (λ x, isASCII x = true)); [done|].
    apply Forall_trim. by eapply forallb_Forall. }
  by rewrite nfkc_ascii, lower_ascii.
Qed.

Lemma isWhiteSpace_letter c : (33 ≤ c ≤ 127)%N → isWhiteSpace c = false.
Proof.
  intros Hc. apply not_true_is_false. unfold isWhiteSpace.
  bool_to_prop. lia.
Qed.

Lemma isWhiteSpace_asciiLower c : isWhiteSpace (asciiLower c) = isWhiteSpace c.
Proof.
  unfold asciiLower. destruct ((65 <=? c) && (c <=? 90))%N eqn:Hup; [|done].
  apply andb_true_iff in Hup as [H1%N.leb_le H2%N.leb_le].
  rewrite !isWhiteSpace_letter; [done|lia|lia].
Qed.

Lemma removeWhiteSpace_asciiLower s :
  removeWhiteSpace (map asciiLower s) = map asciiLower (removeWhiteSpace s).
Proof.
  unfold removeWhiteSpace. induction s as [|c s IH]; [done|].
  cbn [map]. rewrite !filter_cons, isWhiteSpace_asciiLower, IH.
  by destruct (decide (isWhiteSpace c = false)).
Qed.

Lemma removeWhiteSpace_rev s : removeWhiteSpace (rev s) = rev (removeWhiteSpace s).
Proof.
  induction s as [|c s IH]; [done|]. cbn [rev].
  unfold removeWhiteSpace in *. rewrite filter_app, IH.
  rewrite !filter_cons, filter_nil.
  by destruct (decide (isWhiteSpace c = false)); cbn [rev]; rewrite ?app_nil_r.
Qed.

Lemma removeWhiteSpace_trimStart s :
  removeWhiteSpace (trimStart s) = removeWhiteSpace s.
Proof.
  induction s as [|c s IH]; [done|]. cbn [trimStart].
  destruct (isWhiteSpace c) eqn:Hc; [|done].
  rewrite IH. unfold removeWhiteSpace. rewrite filter_cons_False; [done|].
  by rewrite Hc.
Qed.

Lemma removeWhiteSpace_trim s : removeWhiteSpace (trim s) = removeWhiteSpace s.
Proof.
  unfold trim, trimEnd.
  rewrite removeWhiteSpace_rev, removeWhiteSpace_trimStart, removeWhiteSpace_rev.
  by rewrite rev_involutive, removeWhiteSpace_trimStart.
Qed.

Lemma normalizeString_ascii_form {rt : UnicodeRuntime} {laws : UnicodeLaws rt} s :
  forallb isASCII s = true →
  normalizeString (Some s) = map asciiLower (removeWhiteSpace s).
Proof.
  intros Hs. rewrite normalizeString_ascii by done.
  by rewrite removeWhiteSpace_asciiLower, removeWhiteSpace_trim.
Qed.

(** C5: whatever runtime provides NFKC normalisation and lower-casing,
    [normalizeString] is trimming, then NFKC, then lower-casing, then
    deletion of all white space; an absent or empty argument gives the
    empty string; and with the behaviour of the two built-ins on ASCII and
    katakana, ["  Tokyo "] and ["tokyo"] normalise to the same string, and
    so do half-width and full-width ネコ.  Trimming takes away a run of
    white space at the beginning and one at the end and leaves a string
    that neither begins nor ends with white space; the deletion leaves out
    every white-space code unit and nothing else, so that no result holds
    white space; white space is the code units of [whiteSpaceCodes].  On
    ASCII strings the result is the string without its white space, in
    small letters: ["New York"], ["NewYork"] and New York with tabs and
    line breaks around and inside all give ["newyork"]. *)
Theorem normalizeString_pipeline (rt : UnicodeRuntime) (laws : UnicodeLaws rt) :
  (∀ s, normalizeString (Some s)
        = removeWhiteSpace (toLowerCase (normalizeNFKC (trim s))))
  ∧ normalizeString None = []
  ∧ normalizeString (Some []) = []
  ∧ normalizeString (Some (js "  Tokyo ")) = normalizeString (Some (js "tokyo"))
  ∧ normalizeString (Some halfwidthNeko) = normalizeString (Some fullwidthNeko)
  ∧ (∀ s, ∃ pre post,
       s = pre ++ trim s ++ post
       ∧ Forall (λ c, isWhiteSpace c = true) pre
       ∧ Forall (λ c, isWhiteSpace c = true) post
       ∧ startsClean (trim s) ∧ endsClean (trim s))
  ∧ removeWhiteSpace [] = []
  ∧ (∀ c s, removeWhiteSpace (c :: s)
            = if isWhiteSpace c then removeWhiteSpace s
              else c :: removeWhiteSpace s)
  ∧ (∀ c, isWhiteSpace c = true ↔ c ∈ whiteSpaceCodes)
  ∧ (∀ str, Forall (λ c, isWhiteSpace c = false) (normalizeString str))
  ∧ (∀ s, forallb isASCII s = true →
          normalizeString (Some s) = map asciiLower (removeWhiteSpace s))
  ∧ normalizeString (Some (js "  Tokyo ")) = js "tokyo"
  ∧ normalizeString (Some (js "New York")) = js "newyork"
  ∧ normalizeString (Some (js "NewYork")) = js "newyork"
  ∧ normalizeString (Some spacedYork) = js "newyork"
  ∧ normalizeString (Some fullwidthNeko) = fullwidthNeko
  ∧ trim ([12288; 9]%N ++ js "New York" ++ [32; 10]%N) = js "New York"
  ∧ removeWhiteSpace ([12288; 9]%N ++ js "New York" ++ [32; 10]%N)
    = js "NewYork".
Proof.
  assert (Hneko : normalizeString (Some fullwidthNeko) = fullwidthNeko).
  { unfold normalizeString. cbn [falsy default fullwidthNeko].
    change (trim [12493; 12467]%N) with fullwidthNeko.
    rewrite nfkc_katakana by done.
    change (map widen fullwidthNeko) with fullwidthNeko.
    by rewrite lower_katakana. }
  split; [|split; [done|split; [done|split; [|split]]]].
  - intros [|c s]; [|done].
    unfold normalizeString. cbn [falsy].
    change (trim []) with (@nil N).
    rewrite (nfkc_ascii []) by done. by rewrite (lower_ascii []).
  - unfold normalizeString. cbn [falsy default].
    change (trim (js "  Tokyo ")) with (js "Tokyo").
    change (trim (js "tokyo")) with (js "tokyo").
    rewrite !nfkc_ascii by done. by rewrite !lower_ascii.
  - rewrite Hneko.
    unfold normalizeString. cbn [falsy default halfwidthNeko].
    change (trim [65416; 65402]%N) with halfwidthNeko.
    rewrite nfkc_katakana by done.
    change (map widen halfwidthNeko) with fullwidthNeko.
    by rewrite lower_katakana.
  - split; [apply trim_split|]. split; [done|].
    split; [apply removeWhiteSpace_cons|].
    split; [apply isWhiteSpace_codes|].
    split; [apply normalizeString_clean|].
    split; [apply normalizeString_ascii_form|].
    rewrite !normalizeString_ascii_form by done.
    by repeat (split; [by vm_compute|]).
Qed.

Lemma normalizeString_pipeline_witness :
  UnicodeLaws tableRuntime
  ∧ @normalizeString tableRuntime (Some halfwidthNeko)
    = @normalizeString tableRuntime (Some fullwidthNeko).
Proof.
  split; [exact tableRuntime_laws|].
  exact (proj1 (proj2 (proj2 (proj2 (proj2
           (normalizeString_pipeline tableRuntime tableRuntime_laws)))))).
Defined.

(** C6, as stated, fails: J followed by a combining caron is in NFKC form,
    lower-casing it gives j followed by the caron, which NFKC composes
    into the single letter U+01F0 on the second pass. *)
Lemma normalizeString_not_idempotent :
  @normalizeString tableRuntime
    (Some (@normalizeString tableRuntime (Some [74; 780]%N)))
  ≠ @normalizeString tableRuntime (Some [74; 780]%N).
Proof. by vm_compute. Qed.

Lemma normalizeString_stable `{UnicodeRuntime} (str : option jsstring) :
  normalizeNFKC (normalizeString str) = normalizeString str →
  toLowerCase (normalizeString str) = normalizeString str →
  normalizeString (Some (normalizeString str)) = normalizeString str.
Proof.
  intros Hnfkc Hlower.
  pose proof (normalizeString_clean str) as Hclean.
  destruct (normalizeString str) as [|c t] eqn:Ht; [done|].
  unfold normalizeString at 1. cbn [falsy from_option].
  change (trim _) with (trim (c :: t)).
  rewrite (trim_id _ Hclean), Hnfkc, Hlower.
  by apply removeWhiteSpace_id.
Qed.

(** C6 (as amended): normalising twice gives the same as normalising once
    whenever the normalised string is itself left unchanged by NFKC
    normalisation and by lower-casing. *)
Theorem normalizeString_idempotent_when_stable (rt : UnicodeRuntime)
    (str : option jsstring) :
  normalizeNFKC (normalizeString str) = normalizeString str →
  toLowerCase (normalizeString str) = normalizeString str →
  normalizeString (Some (normalizeString str)) = normalizeString str.
Proof. apply normalizeString_stable. Qed.

Lemma normalizeString_idempotent_witness :
  @normalizeString tableRuntime
    (Some (@normalizeString tableRuntime (Some (js "  Tokyo "))))
  = @normalizeString tableRuntime (Some (js "  Tokyo ")).
Proof.
  apply (normalizeString_idempotent_when_stable tableRuntime
           (Some (js "  Tokyo "))); reflexivity.
Defined.

(** On ASCII strings the normalised form is stable, so there the
    normaliser is idempotent. *)

Lemma asciiLower_lower c : isASCII c = true → isLowerASCII (asciiLower c).
Proof.
  unfold isLowerASCII, isASCII, asciiLower. intros Hc%N.ltb_lt.
  destruct ((65 <=? c) && (c <=? 90))%N eqn:Hup.
  - apply andb_true_iff in Hup as [H1%N.leb_le H2%N.leb_le].
    split; [apply N.ltb_lt; lia|].
    replace (c + 32 <=? 90)%N with false by (symmetry; apply N.leb_gt; lia).
    by rewrite andb_false_r.
  - rewrite Hup. split; [by apply N.ltb_lt|done].
Qed.

Lemma normalizeString_ascii_lower {rt : UnicodeRuntime} {laws : UnicodeLaws rt} s :
  forallb isASCII s = true → Forall isLowerASCII (normalizeString (Some s)).
Proof.
  intros Hs. rewrite normalizeString_ascii by done.
  unfold removeWhiteSpace. apply Forall_forall. intros x Hx.
  apply list_elem_of_filter in Hx as [_ Hx].
  apply list_elem_of_fmap in Hx as (c & -> & Hc).
  apply asciiLower_lower.
  assert (Hall : Forall (λ x, isASCII x = true) (trim s)).
  { apply Forall_trim. by eapply forallb_Forall. }
  rewrite Forall_forall in Hall. by apply Hall.
Qed.

(** X6: on ASCII strings the normaliser is idempotent: normalising a
    normalised ASCII string changes nothing. *)
Lemma normalizeString_idempotent_ascii {rt : UnicodeRuntime}
    {laws : UnicodeLaws rt} s :
  forallb isASCII s = true →
  normalizeString (Some (normalizeString (Some s))) = normalizeString (Some s).
Proof.
  intros Hs. pose proof (normalizeString_ascii_lower s Hs) as Hlow.
  assert (Hascii : forallb isASCII (normalizeString (Some s)) = true).
  { apply (Forall_forallb _ isLowerASCII); [by intros x [Hx _]|done]. }
  apply normalizeString_stable.
  - by apply nfkc_ascii.
  - rewrite lower_ascii by done. rewrite <- (map_id (normalizeString (Some s))) at 2.
    apply map_ext_in. intros x Hx. rewrite Forall_forall in Hlow.
    by apply list_elem_of_In, Hlow in Hx as [_ Hx].
Qed.

(** ** The shuffle *)

(** What the type of the random values says. *)
Lemma unit_double_range r :
  (0 ≤ significand r < 2 ^ 53 ∧ significand r < 2 ^ scale r
   ∧ 0 ≤ scale r ≤ 1074)%Z.
Proof.
  destruct r as [m p H]. cbn [significand scale]. unfold isUnitDouble in H.
  repeat (apply andb_prop in H as [H ?]).
  rewrite ?Z.leb_le, ?Z.ltb_lt in *. lia.
Qed.


(** The rounded quotient, times the divisor, is within half the divisor of
    the number, and not below the quotient. *)
Lemma roundHalfEven_near a s :
  (0 < s)%Z →
  (a / 2 ^ s ≤ roundHalfEven a s
   ∧ roundHalfEven a s * 2 ^ s ≤ a + 2 ^ (s - 1)
   ∧ a - 2 ^ (s - 1) ≤ roundHalfEven a s * 2 ^ s)%Z.
Proof.
  intros Hs. unfold roundHalfEven.
  assert (Hhalf : (0 < 2 ^ (s - 1))%Z) by (apply Z.pow_pos_nonneg; lia).
  assert (Hpow : (2 ^ s = 2 * 2 ^ (s - 1))%Z).
  { rewrite <- Z.pow_succ_r by lia. f_equal. lia. }
  pose proof (Z.div_mod a (2 ^ s) ltac:(lia)) as Hdiv.
  pose proof (Z.mod_pos_bound a (2 ^ s) ltac:(lia)) as Hmod.
  destruct (Z.ltb_spec (a mod 2 ^ s) (2 ^ (s - 1))) as [H1|H1]; [nia|].
  destruct (Z.ltb_spec (2 ^ (s - 1)) (a mod 2 ^ s)) as [H2|H2]; [nia|].
  destruct (Z.even (a / 2 ^ s)); nia.
Qed.


(** The double product is at most the exact product and one part in
    [2 ^ 53] of it. *)
Lemma timesDouble_upper r n :
  (0 < n → timesDouble r n * 2 ^ 53 ≤ significand r * n * (2 ^ 53 + 1))%Z.
Proof.
  intros Hn. destruct (unit_double_range r) as (Hm & Hp & Hs).
  unfold timesDouble. set (a := (significand r * n)%Z).
  assert (Ha : (0 ≤ a)%Z) by (subst a; nia).
  destruct (Z.leb_spec (Z.max (Z.log2 a - 52) (scale r - 1074)) 0) as [H0|H0];
    [nia|].
  rewrite Z.max_l in * by lia.
  assert (Hpos : (0 < a)%Z).
  { destruct (decide (a = 0%Z)) as [Heq|]; [|lia]. rewrite Heq in H0.
    cbn in H0. lia. }
  destruct (roundHalfEven_near a (Z.log2 a - 52) H0) as (_ & Hup & _).
  destruct (Z.log2_spec a Hpos) as [Hlog _].
  assert (Hsplit : (2 ^ Z.log2 a = 2 ^ (Z.log2 a - 52 - 1) * 2 ^ 53)%Z).
  { rewrite <- Z.pow_add_r by lia. f_equal. lia. }
  lia.
Qed.


(** The index drawn is at most [i]: the double product stays below
    [i + 1]. *)
Lemma randomIndex_le r i : randomIndex r i ≤ i.
Proof.
  unfold randomIndex. destruct (unit_double_range r) as (Hm & Hp & Hs).
  set (n := Z.of_nat (i + 1)).
  assert (Hn : (0 < n)%Z) by (subst n; lia).
  pose proof (timesDouble_upper r n Hn) as Hup.
  assert (Hpow : (0 < 2 ^ scale r)%Z) by (apply Z.pow_pos_nonneg; lia).
  assert (Hlt : (timesDouble r n / 2 ^ scale r < n)%Z).
  { apply Z.div_lt_upper_bound; [done|].
    destruct (Z.le_gt_cases (2 ^ scale r) (2 ^ 53)); nia. }
  subst n. lia.
Qed.




Lemma swap_Permutation {T} (newArr : list T) i j : swap newArr i j ≡ₚ newArr.
Proof.
  unfold swap. destruct (newArr !! i) as [ai|] eqn:Hi; [|done].
  destruct (newArr !! j) as [aj|] eqn:Hj; [|done].
  by apply Permutation_insert_swap.
Qed.

(** Inside the array the swap is the pair of assignments of the source. *)
Lemma swap_inside {T} (newArr : list T) i j :
  i < length newArr → j ≤ i →
  ∃ ai aj, newArr !! i = Some ai ∧ newArr !! j = Some aj
           ∧ swap newArr i j = <[j := ai]> (<[i := aj]> newArr).
Proof.
  intros Hi Hj.
  destruct (lookup_lt_is_Some_2 newArr i Hi) as [ai Hai].
  destruct (lookup_lt_is_Some_2 newArr j ltac:(lia)) as [aj Haj].
  exists ai, aj. unfold swap. by rewrite Hai, Haj.
Qed.

Lemma shuffle_loop_Permutation {T} random i : ∀ calls (newArr : list T),
  shuffle_loop random calls i newArr ≡ₚ newArr.
Proof.
  induction i as [|i IH]; intros calls newArr; [done|].
  cbn [shuffle_loop]. rewrite IH. apply swap_Permutation.
Qed.

Lemma shuffleArray_Permutation {T} random (array : list T) :
  shuffleArray random array ≡ₚ array.
Proof. apply shuffle_loop_Permutation. Qed.


(** The result of the shuffle determines the indices that were drawn: on
    an array without repetition, two random sources that give the same
    result drew the same index at every step, so that an arrangement is
    the outcome of one sequence of draws only. *)

Section draws.
Context {T : Type}.

Lemma swap_length (newArr : list T) i j : length (swap newArr i j) = length newArr.
Proof. apply Permutation_length, swap_Permutation. Qed.

Lemma swap_lookup_other (newArr : list T) i j k :
  k ≠ i → k ≠ j → swap newArr i j !! k = newArr !! k.
Proof.
  intros Hi Hj. unfold swap.
  destruct (newArr !! i) as [ai|]; [|done]. destruct (newArr !! j) as [aj|]; [|done].
  by rewrite !list_lookup_insert_ne.
Qed.

Lemma swap_lookup_current (newArr : list T) i j :
  i < length newArr → j ≤ i → swap newArr i j !! i = newArr !! j.
Proof.
  intros Hi Hj.
  destruct (swap_inside newArr i j Hi Hj) as (ai & aj & Hai & Haj & ->).
  destruct (decide (j = i)) as [->|Hne].
  - rewrite list_lookup_insert_eq by (rewrite length_insert; lia). congruence.
  - rewrite list_lookup_insert_ne by done.
    rewrite list_lookup_insert_eq by lia. done.
Qed.

Lemma shuffle_loop_above random i : ∀ calls (newArr : list T) k,
  i < k → shuffle_loop random calls i newArr !! k = newArr !! k.
Proof.
  induction i as [|i IH]; intros calls newArr k Hk; [done|].
  cbn [shuffle_loop]. rewrite IH by lia.
  pose proof (randomIndex_le (random calls) (S i)).
  apply swap_lookup_other; lia.
Qed.

Lemma shuffle_loop_draws_determined random random' i :
  ∀ calls calls' (newArr : list T),
    NoDup newArr → i < length newArr →
    shuffle_loop random calls i newArr = shuffle_loop random' calls' i newArr →
    ∀ m, m < i →
      randomIndex (random (calls + m)) (i - m)
      = randomIndex (random' (calls' + m)) (i - m).
Proof.
  induction i as [|i IH]; intros calls calls' newArr Hnd Hi Heq m Hm; [lia|].
  cbn [shuffle_loop] in Heq.
  pose proof (randomIndex_le (random calls) (S i)) as Hj.
  pose proof (randomIndex_le (random' calls') (S i)) as Hj'.
  assert (Hsame : randomIndex (random calls) (S i)
                  = randomIndex (random' calls') (S i)).
  { assert (Hlook : newArr !! randomIndex (random calls) (S i)
                    = newArr !! randomIndex (random' calls') (S i)).
    { assert (Hout : ∀ rnd c,
                randomIndex (rnd c) (S i) ≤ S i →
                shuffle_loop rnd (S c) i
                  (swap newArr (S i) (randomIndex (rnd c) (S i))) !! S i
                = newArr !! randomIndex (rnd c) (S i)).
      { intros rnd c Hle. rewrite shuffle_loop_above by lia.
        by apply swap_lookup_current. }
      rewrite <- (Hout random calls Hj), <- (Hout random' calls' Hj').
      by rewrite Heq. }
    destruct (lookup_lt_is_Some_2 newArr (randomIndex (random calls) (S i))
                ltac:(lia)) as [x Hx].
    rewrite Hx in Hlook. by eapply NoDup_lookup. }
  destruct m as [|m].
  - by rewrite !Nat.add_0_r, Nat.sub_0_r.
  - rewrite <- Hsame in Heq.
    replace (calls + S m) with (S calls + m) by lia.
    replace (calls' + S m) with (S calls' + m) by lia.
    replace (S i - S m) with (i - m) by lia.
    eapply IH; [| |exact Heq|lia].
    + by rewrite swap_Permutation.
    + rewrite swap_length. lia.
Qed.

(** X7: on an array without repetition the shuffled result determines
    every index that was drawn: two random sources that lead to the same
    result drew the same index at each step of the loop. *)
Lemma shuffleArray_draws_determined random random' (array : list T) :
  NoDup array →
  shuffleArray random array = shuffleArray random' array →
  ∀ m, m < length array - 1 →
    randomIndex (random m) (length array - 1 - m)
    = randomIndex (random' m) (length array - 1 - m).
Proof.
  intros Hnd Heq m Hm.
  apply (shuffle_loop_draws_determined random random' (length array - 1) 0 0 array);
    [done|lia|done|done].
Qed.

End draws.

(** ** Starting a game *)

Lemma slice_nil {T} start end_ : slice start end_ (@nil T) = [].
Proof. unfold slice. by rewrite drop_nil, take_nil. Qed.

Lemma selectDeck_empty_source random newSettings st :
  sourceCards st = [] → selectDeck random newSettings st = [].
Proof.
  intros Hsrc. unfold selectDeck. rewrite Hsrc.
  change (shuffleArray random []) with (@nil Card).
  destruct (order newSettings), (limit newSettings);
    repeat case_match; by rewrite ?slice_nil.
Qed.

(** C8: when the selected deck is empty, and so whenever the source of the
    selection is empty, [handleStartGame] raises the alert and returns
    without starting: the screen, the play queue and the game results are
    those of before (only the settings are stored). *)
Theorem handleStartGame_refuses_empty_deck random newSettings st :
  sourceCards st = [] ∨ selectDeck random newSettings st = [] →
  selectDeck random newSettings st = []
  ∧ handleStartGame random newSettings st
    = (mkApp (allCards st) (loading st) (currentScreen st) (wrongHistory st)
             (playQueue st) (gameResults st) (setupSource st) newSettings
             (index st) (results st), Alert).
Proof.
  intros Hempty.
  assert (Hdeck : selectDeck random newSettings st = []).
  { destruct Hempty as [Hsrc|Hdeck]; [|done]. by apply selectDeck_empty_source. }
  split; [done|]. unfold handleStartGame. by rewrite Hdeck.
Qed.

Lemma handleStartGame_refuses_witness :
  sourceCards emptyLoaded = []
  ∧ (handleStartGame zeroRandom (mkSettings INPUT RANDOM (Some 10%Z) 0) emptyLoaded).2
    = Alert.
Proof.
  split; [reflexivity|].
  rewrite (proj2 (handleStartGame_refuses_empty_deck zeroRandom
                    (mkSettings INPUT RANDOM (Some 10%Z) 0) emptyLoaded
                    (or_introl eq_refl))).
  reflexivity.
Defined.

(** A deck that is not empty starts the game with that deck. *)
Lemma handleStartGame_starts random newSettings st :
  selectDeck random newSettings st ≠ [] →
  handleStartGame random newSettings st
  = (mkApp (allCards st) (loading st) GAME (wrongHistory st)
           (selectDeck random newSettings st) [] (setupSource st) newSettings
           (index st) (results st), NoEffect).
Proof.
  intros Hdeck. unfold handleStartGame.
  destruct (selectDeck random newSettings st); done.
Qed.

(** ** The miss-count table *)

Lemma missCount_recordMiss h r k :
  missCount (recordMiss h r) k
  = missCount h k + (if decide (isCorrect r = false ∧ cardId r = k) then 1 else 0).
Proof.
  unfold recordMiss, missCount. destruct (isCorrect r) eqn:Hr.
  - rewrite decide_False by (by intros [? _]). lia.
  - destruct (decide (cardId r = k)) as [->|Hk].
    + rewrite lookup_insert_eq, decide_True by done. done.
    + rewrite lookup_insert_ne by done. rewrite decide_False by (by intros [_ ?]). lia.
Qed.

Lemma missCount_updateHistory res : ∀ h k,
  missCount (updateHistory h res) k = missCount h k + misses k res.
Proof.
  unfold updateHistory, misses.
  induction res as [|r res IH]; intros h k; cbn [foldl]; [cbn; lia|].
  rewrite IH, missCount_recordMiss, filter_cons.
  destruct (decide (isCorrect r = false ∧ cardId r = k)); cbn [length]; lia.
Qed.

Lemma recordMiss_positive h r : positiveCounts h → positiveCounts (recordMiss h r).
Proof.
  unfold recordMiss, positiveCounts. intros Hh k n.
  destruct (isCorrect r); [apply Hh|].
  destruct (decide (cardId r = k)) as [->|Hk].
  - rewrite lookup_insert_eq. intros [= <-]. lia.
  - rewrite lookup_insert_ne by done. apply Hh.
Qed.

Lemma updateHistory_positive res : ∀ h,
  positiveCounts h → positiveCounts (updateHistory h res).
Proof.
  unfold updateHistory. induction res as [|r res IH]; intros h Hh; [done|].
  cbn [foldl]. by apply IH, recordMiss_positive.
Qed.

Lemma recordMiss_dom h r k :
  k ∈ dom (recordMiss h r) → k ∈ dom h ∨ (isCorrect r = false ∧ cardId r = k).
Proof.
  unfold recordMiss. destruct (isCorrect r); [by left|].
  rewrite dom_insert_L, elem_of_union, elem_of_singleton.
  intros [->|Hk]; [by right|by left].
Qed.

Lemma updateHistory_dom res : ∀ h k,
  k ∈ dom (updateHistory h res) →
  k ∈ dom h ∨ ∃ r, r ∈ res ∧ isCorrect r = false ∧ cardId r = k.
Proof.
  unfold updateHistory. induction res as [|r res IH]; intros h k; cbn [foldl].
  - by left.
  - intros [Hk|(r' & Hin & Hr')]%IH.
    + apply recordMiss_dom in Hk as [Hk|Hk]; [by left|].
      right. exists r. split; [left|done].
    + right. exists r'. split; [by right|done].
Qed.

(** Where the deck comes from. *)

Lemma slice_subseteq {T} start end_ (l : list T) : slice start end_ l ⊆ l.
Proof.
  unfold slice. intros x Hx.
  apply (subseteq_drop (Z.to_nat (relativeIndex (Z.of_nat (length l)) start))).
  by eapply subseteq_take.
Qed.

Lemma sourceCards_subseteq st : sourceCards st ⊆ allCards st.
Proof.
  unfold sourceCards. destruct (setupSource st); [done|].
  intros c Hc. by apply list_elem_of_filter in Hc as [_ Hc].
Qed.

Lemma selectDeck_subseteq random newSettings st :
  selectDeck random newSettings st ⊆ allCards st.
Proof.
  unfold selectDeck.
  assert (Hshuffle : shuffleArray random (sourceCards st) ⊆ allCards st).
  { intros c Hc. rewrite shuffleArray_Permutation in Hc.
    by apply sourceCards_subseteq. }
  pose proof (sourceCards_subseteq st) as Hsrc.
  destruct (order newSettings), (limit newSettings); repeat case_match;
    repeat (etrans; [apply slice_subseteq|]); done.
Qed.

(** ** Reachable states *)

Lemma ids_subseteq (l1 l2 : list Card) : l1 ⊆ l2 → ids l1 ⊆ ids l2.
Proof.
  intros Hsub k (c & -> & Hc)%list_elem_of_fmap.
  apply list_elem_of_fmap. exists c. split; [done|by apply Hsub].
Qed.

Lemma initialState_consistent : consistent initialState.
Proof.
  unfold consistent, initialState, positiveCounts. cbn.
  split; [done|]. split; [set_solver|]. split; [|split; [done|constructor]].
  intros k n. by rewrite lookup_empty.
Qed.

Lemma goNext_consistent correct inputVal st st' :
  goNext correct inputVal st = Return st' → consistent st → consistent st'.
Proof.
  unfold goNext. intros Hgo (Hload & Hdom & Hpos & Hpq & Hres).
  destruct (playQueue st !! index st) as [currentCard|] eqn:Hcard; [|done].
  set (newResult := mkResult (id currentCard) correct _) in Hgo.
  assert (Hnext : Forall (λ r, cardId r ∈ ids (playQueue st))
                    (results st ++ [newResult])).
  { apply Forall_app; split; [done|]. apply Forall_singleton. cbn.
    apply list_elem_of_fmap. exists currentCard. split; [done|].
    by eapply list_elem_of_lookup_2. }
  assert (Hl : loading st = true → False).
  { intros Hl. destruct (Hload Hl) as (_ & Hq & _). by rewrite Hq in Hcard. }
  destruct (index st + 1 <? length (playQueue st)); injection Hgo as <-.
  - unfold consistent. cbn. split; [by intros ?%Hl|]. by repeat split.
  - unfold consistent, handleGameFinish. cbn. split; [by intros ?%Hl|].
    repeat split; try done.
    + intros k [Hk|(r & Hin & _ & <-)]%updateHistory_dom; [by apply Hdom|].
      rewrite Forall_forall in Hnext. by apply (ids_subseteq _ _ Hpq), Hnext.
    + by apply updateHistory_positive.
Qed.

Lemma step_consistent st st' : step st st' → consistent st → consistent st'.
Proof.
  intros Hstep Hst. pose proof Hst as (Hload & Hdom & Hpos & Hpq & Hres).
  destruct Hstep as
    [text data st Hl _|st Hl|st Hl _|st Hl _ _|st Hl _|st Hl _
    |random newSettings st st' Hl _ Hstart|random newSettings st st' Hl _ Hstart
    |correct inputVal st st' Hl _ Hgo|st Hl _|st Hl _|st Hl _|st Hl _|st Hl _];
    try (unfold consistent; cbn; rewrite Hl; by repeat split).
  - destruct (Hload Hl) as (Hh & Hq & Hr).
    unfold consistent, positiveCounts. cbn. rewrite Hh, Hq, Hr.
    split; [done|]. split; [set_solver|].
    split; [intros k n; by rewrite lookup_empty|].
    split; [set_solver|constructor].
  - unfold handleStartGame in Hstart.
    destruct (length (selectDeck random newSettings st) =? 0); [done|].
    injection Hstart as <-. unfold consistent. cbn. rewrite Hl.
    repeat split; try done. apply selectDeck_subseteq.
  - unfold handleStartGame in Hstart.
    destruct (length (selectDeck random newSettings st) =? 0); [|done].
    injection Hstart as <-. unfold consistent. cbn. rewrite Hl. by repeat split.
  - by eapply goNext_consistent.
Qed.

Lemma reachable_consistent st : reachable st → consistent st.
Proof.
  unfold reachable. intros Hreach.
  eapply (rtc_ind_r (λ s, consistent s));
    [apply initialState_consistent| |exact Hreach].
  intros s s' _ Hstep IH. by eapply step_consistent.
Qed.

Lemma runMissed_reachable : reachable runMissed.
Proof.
  unfold reachable.
  eapply rtc_l; [apply (step_loaded appleText appleCards); by vm_compute|].
  eapply rtc_l; [by apply step_start_all|].
  eapply rtc_l;
    [by apply (step_start_game zeroRandom runSettings
                 (openSetup ALL (cardsLoaded appleCards initialState))
                 (handleStartGame zeroRandom runSettings runSetup).1)|].
  apply rtc_once. by apply (step_go_next false []).
Qed.

(** C9: in every reachable state the keys of the miss-count table are
    identifiers of cards of the master list and every stored count is
    positive, so that a missing key and a count of zero are the same; the
    play queue is drawn from the master list and the results of the
    running game from the play queue; finishing a game adds to the count
    of each card one per incorrect result for it, and creates keys only
    for cards with an incorrect result. *)
Theorem wrongHistory_keys_are_card_ids st :
  reachable st →
  dom (wrongHistory st) ⊆ (list_to_set (ids (allCards st)) : gset nat)
  ∧ (∀ k n, wrongHistory st !! k = Some n → 0 < n)
  ∧ (∀ k, missCount (wrongHistory st) k = 0 ↔ wrongHistory st !! k = None)
  ∧ playQueue st ⊆ allCards st
  ∧ Forall (λ r, cardId r ∈ ids (playQueue st)) (results st)
  ∧ (∀ res k,
       missCount (wrongHistory (handleGameFinish res st)) k
       = missCount (wrongHistory st) k + misses k res)
  ∧ (∀ res k,
       k ∈ dom (wrongHistory (handleGameFinish res st)) →
       k ∈ dom (wrongHistory st)
       ∨ ∃ r, r ∈ res ∧ isCorrect r = false ∧ cardId r = k).
Proof.
  intros (Hload & Hdom & Hpos & Hpq & Hres)%reachable_consistent.
  split; [|split; [done|split; [|split; [done|split; [done|split]]]]].
  - intros k Hk. apply elem_of_list_to_set. by apply Hdom.
  - intros k. unfold missCount.
    destruct (wrongHistory st !! k) as [n|] eqn:Hk; [|done].
    apply Hpos in Hk. cbn. split; [lia|done].
  - intros res k. apply missCount_updateHistory.
  - intros res k. apply updateHistory_dom.
Qed.

Lemma wrongHistory_keys_witness :
  dom (wrongHistory runMissed)
  ⊆ (list_to_set (ids (allCards runMissed)) : gset nat).
Proof.
  exact (proj1 (wrongHistory_keys_are_card_ids runMissed runMissed_reachable)).
Defined.

(** * Further properties of the code *)

(** ** The parser: line ends, texts without quotes, quotes left open *)

Lemma plainText_Forall text :
  plainText text = true → Forall (λ c, c ≠ QUOTE ∧ c ≠ CR) text.
Proof.
  apply forallb_Forall. intros c Hc. apply negb_true_iff, orb_false_iff in Hc.
  by destruct Hc as [H1%N.eqb_neq H2%N.eqb_neq].
Qed.


(** X1: outside quotes a carriage return followed by a line feed ends the
    row exactly as a line feed alone does, and so does a carriage return
    that no line feed follows. *)
Theorem line_ends_interchangeable st rest :
  insideQuotes st = false →
  scan st (CR :: LF :: rest) = scan st (LF :: rest)
  ∧ (head rest ≠ Some LF → scan st (CR :: rest) = scan st (LF :: rest)).
Proof.
  intros Hq. split.
  - rewrite !scan_cons. unfold scan_step. cbn. by rewrite Hq.
  - intros Hnext. rewrite !scan_cons. unfold scan_step. cbn. rewrite Hq. cbn.
    by rewrite bool_decide_eq_false_2.
Qed.

Lemma line_ends_interchangeable_witness :
  scan scan_init (CR :: LF :: js "a") = scan scan_init (LF :: js "a").
Proof.
  exact (proj1 (line_ends_interchangeable scan_init (js "a") eq_refl)).
Defined.

Lemma splitOn_nonempty sep s : splitOn sep s ≠ [].
Proof.
  destruct s as [|c s]; cbn; [done|].
  destruct (c =? sep)%N; [done|]. by destruct (splitOn sep s).
Qed.

Lemma joinFirst_nil lines :
  lines ≠ [] → joinFirst [] [] lines = map (splitOn COMMA) lines.
Proof.
  destruct lines as [|l0 ls]; [done|]. intros _. unfold joinFirst. cbn [map].
  pose proof (splitOn_nonempty COMMA l0). by destruct (splitOn COMMA l0).
Qed.

Lemma keepRow_not_blank row cell :
  keepRow (row ++ [cell]) = bool_decide (row ++ [cell] ≠ [[]]).
Proof.
  symmetry. destruct row as [|f row].
  - cbn. destruct cell; cbn.
    + apply bool_decide_eq_false_2. intros H. by apply H.
    + by apply bool_decide_eq_true_2.
  - rewrite bool_decide_eq_true_2 by (by destruct row).
    unfold keepRow. cbn [app length]. rewrite length_app. cbn [length].
    replace (1 <? S (length row + 1)) with true; [done|].
    symmetry. apply Nat.ltb_lt. lia.
Qed.

(** The scan of a text without quote and carriage return, from any state
    outside quotes. *)
Lemma scan_plain text : ∀ rs row cell,
  Forall (λ c, c ≠ QUOTE ∧ c ≠ CR) text →
  flush (scan (mkScan rs row cell false) text)
  = rs ++ filter (λ r, r ≠ [[]]) (joinFirst row cell (splitOn LF text)).
Proof.
  induction text as [|c text IH]; intros rs row cell Hplain.
  - unfold flush.
    cbn [scan currentCell currentRow rows splitOn joinFirst map].
    rewrite app_nil_r, filter_cons, filter_nil.
    destruct row as [|f row]; [destruct cell as [|c cell]|]; cbn.
    + rewrite decide_False by (intros H; by apply H). by rewrite app_nil_r.
    + by rewrite decide_True.
    + rewrite orb_true_r, decide_True; [done|by destruct row].
  - apply Forall_cons in Hplain as [[Hq Hcr] Hplain].
    rewrite scan_cons. unfold scan_step. cbn [insideQuotes negb andb].
    apply N.eqb_neq in Hq, Hcr. rewrite Hq, Hcr, !andb_true_r. cbn [orb].
    cbn [splitOn].
    pose proof (splitOn_nonempty LF text) as Hlines.
    destruct (c =? COMMA)%N eqn:Hcomma.
    + apply N.eqb_eq in Hcomma as ->. cbn [fst snd]. rewrite IH by done.
      change (COMMA =? LF)%N with false. cbn iota.
      destruct (splitOn LF text) as [|l0 ls]; [done|].
      unfold joinFirst. cbn [splitOn]. change (COMMA =? COMMA)%N with true. cbn iota.
      pose proof (splitOn_nonempty COMMA l0).
      destruct (splitOn COMMA l0) as [|f0 fs]; [done|].
      by rewrite <- !app_assoc, app_nil_r.
    + destruct (c =? LF)%N eqn:Hlf.
      * cbn [fst snd rows currentRow currentCell]. rewrite keepRow_not_blank.
        unfold joinFirst at 1. cbn [splitOn]. rewrite app_nil_r.
        case_bool_decide as Hrow.
        -- rewrite IH by done. rewrite filter_cons_True by done.
           rewrite joinFirst_nil by done. rewrite <- app_assoc. done.
        -- rewrite IH by done. rewrite filter_cons_False by tauto.
           by rewrite joinFirst_nil.
      * cbn [fst snd]. rewrite IH by done.
        destruct (splitOn LF text) as [|l0 ls]; [done|].
        unfold joinFirst. cbn [splitOn]. rewrite Hcomma.
        pose proof (splitOn_nonempty COMMA l0).
        destruct (splitOn COMMA l0) as [|f0 fs]; [done|].
        by rewrite <- !app_assoc.
Qed.

Lemma parseRows_plainRows text :
  plainText text = true → parseRows text = plainRows text.
Proof.
  intros Hplain%plainText_Forall. unfold parseRows, scan_init, plainRows.
  rewrite scan_plain by done. cbn [app].
  by rewrite joinFirst_nil by apply splitOn_nonempty.
Qed.

(** X2: on a text without quote and carriage return the scanner does what
    reading line by line does: the rows are the lines, cut at line feeds,
    each cut at its commas, the blank lines left out; the records are those
    of these rows. *)
Theorem parseCSV_of_plain_text text :
  plainText text = true →
  parseRows text = plainRows text
  ∧ parseCSV text = Return (recordsOf (plainRows text)).
Proof.
  intros Hplain. split; [by apply parseRows_plainRows|].
  by rewrite parseCSV_records, parseRows_plainRows.
Qed.

Lemma parseCSV_of_plain_text_witness :
  parseCSV appleText = Return (recordsOf (plainRows appleText)).
Proof. exact (proj2 (parseCSV_of_plain_text appleText eq_refl)). Defined.

Lemma scan_step_plain st c nextChar :
  c ≠ QUOTE → c ≠ CR →
  scan_step st c nextChar = scan_step st c None
  ∧ (scan_step st c None).2 = false
  ∧ insideQuotes (scan_step st c None).1 = insideQuotes st.
Proof.
  intros Hq%N.eqb_neq Hcr%N.eqb_neq. unfold scan_step. rewrite Hq, Hcr.
  cbn [andb orb]. by repeat case_match.
Qed.

Lemma scan_toCRLF text : ∀ st,
  insideQuotes st = false →
  Forall (λ c, c ≠ QUOTE ∧ c ≠ CR) text →
  scan st (toCRLF text) = scan st text.
Proof.
  induction text as [|c text IH]; intros st Hst Hplain; [done|].
  apply Forall_cons in Hplain as [[Hq Hcr] Hplain].
  destruct (scan_step_plain st c None Hq Hcr) as (_ & Hskip & Hin).
  unfold toCRLF. cbn [flat_map]. fold (toCRLF text).
  assert (Hstep : ∀ rest, scan st (c :: rest) = scan (scan_step st c None).1 rest).
  { intros rest. rewrite scan_cons.
    destruct (scan_step_plain st c (head rest) Hq Hcr) as (-> & _ & _).
    by rewrite Hskip. }
  rewrite (Hstep text).
  destruct (c =? LF)%N eqn:Hlf; cbn [app].
  - apply N.eqb_eq in Hlf as ->. destruct st as [rs row cell q].
    cbn in Hst. subst q. rewrite scan_cons. unfold scan_step. cbn.
    by apply IH.
  - rewrite Hstep. apply IH; [by rewrite Hin|done].
Qed.

(** X3: a text without quote and carriage return gives the same records
    when every line feed is written as carriage return, line feed. *)
Theorem parseCSV_windows_line_ends text :
  plainText text = true → parseCSV (toCRLF text) = parseCSV text.
Proof.
  intros Hplain%plainText_Forall. unfold parseCSV, parseRows.
  by rewrite scan_toCRLF.
Qed.

Lemma parseCSV_windows_line_ends_witness :
  parseCSV (toCRLF appleText) = Return appleCards.
Proof.
  rewrite (parseCSV_windows_line_ends appleText eq_refl). reflexivity.
Defined.




(** ** The normaliser on ASCII text, and the typed-answer check *)

(** X5: for an ASCII answer and ASCII input, [checkInput] judges the input
    correct exactly when the two agree once all white space is deleted and
    capital letters are made small: white space anywhere and letter case
    never matter, everything else does. *)
Theorem checkInput_ascii (rt : UnicodeRuntime) (laws : UnicodeLaws rt)
    (currentCard : Card) (typed : jsstring) (shown : bool) :
  forallb isASCII typed = true →
  forallb isASCII (answer currentCard) = true →
  GameScreen.judgedCorrect
    (GameScreen.checkInput currentCard (GameScreen.mkInput typed shown None))
  = bool_decide (map asciiLower (removeWhiteSpace typed)
                 = map asciiLower (removeWhiteSpace (answer currentCard))).
Proof.
  intros Htyped Hanswer. unfold GameScreen.checkInput, GameScreen.judgedCorrect.
  cbn. rewrite !normalizeString_ascii_form by done.
  by case_bool_decide.
Qed.

Lemma checkInput_ascii_witness :
  GameScreen.judgedCorrect
    (@GameScreen.checkInput tableRuntime yorkCard
       (GameScreen.mkInput (js " new  york") false None))
  = true.
Proof.
  rewrite (checkInput_ascii tableRuntime tableRuntime_laws yorkCard
             (js " new  york") false eq_refl eq_refl).
  reflexivity.
Defined.

Lemma normalizeString_idempotent_ascii_witness :
  @normalizeString tableRuntime
    (Some (@normalizeString tableRuntime (Some (js " New York "))))
  = @normalizeString tableRuntime (Some (js " New York ")).
Proof.
  exact (@normalizeString_idempotent_ascii tableRuntime tableRuntime_laws
           (js " New York ") eq_refl).
Defined.

(** ** The shuffle: the draws behind a result *)

Lemma shuffleArray_draws_determined_witness :
  randomIndex (zeroRandom 0) (length [1; 2; 3] - 1 - 0)
  = randomIndex (eighthRandom 0) (length [1; 2; 3] - 1 - 0).
Proof.
  apply (shuffleArray_draws_determined zeroRandom eighthRandom [1; 2; 3]).
  - by apply (bool_decide_unpack (NoDup [1; 2; 3])).
  - reflexivity.
  - cbn. lia.
Defined.

(** ** The selection of the deck *)

Lemma slice_from {T} k (l : list T) :
  (0 ≤ k)%Z → slice k None l = drop (Z.to_nat k) l.
Proof.
  intros Hk. unfold slice, relativeIndex.
  replace (k <? 0)%Z with false by (symmetry; apply Z.ltb_ge; lia).
  destruct (decide (Z.of_nat (length l) ≤ k)%Z).
  - rewrite Z.min_r by lia. rewrite Z.sub_diag. cbn [Z.to_nat take].
    rewrite Nat2Z.id, !drop_ge by lia. by rewrite take_nil.
  - rewrite Z.min_l by lia. rewrite take_ge; [done|].
    rewrite length_drop. lia.
Qed.

Lemma slice_upto {T} n (l : list T) :
  slice 0 (Some n) l
  = take (if (n <? 0)%Z then length l - Z.to_nat (- n) else Z.to_nat n) l.
Proof.
  unfold slice, relativeIndex. cbn [Z.ltb Z.compare].
  rewrite (Z.min_l 0) by lia. change (Z.to_nat 0) with 0.
  rewrite drop_0, Z.sub_0_r.
  destruct (n <? 0)%Z eqn:Hn.
  - apply Z.ltb_lt in Hn. f_equal. lia.
  - apply Z.ltb_ge in Hn. destruct (decide (n ≤ Z.of_nat (length l))%Z).
    + by rewrite Z.min_l by lia.
    + rewrite Z.min_r by lia. rewrite Nat2Z.id.
      rewrite (take_ge l (length l)) by lia.
      by rewrite (take_ge l (Z.to_nat n)) by lia.
Qed.

(** X8: a sequential selection without limit is the source without its
    first [startIndex] cards, in the order of the source; a start index of
    zero or less, or one past the end, is not an error: the one keeps
    everything, the other leaves nothing. *)
Theorem selectDeck_sequential random m k st :
  selectDeck random (mkSettings m SEQUENTIAL None k) st
  = drop (Z.to_nat k) (sourceCards st)
  ∧ length (selectDeck random (mkSettings m SEQUENTIAL None k) st)
    = length (sourceCards st) - Z.to_nat k.
Proof.
  assert (Hdeck : selectDeck random (mkSettings m SEQUENTIAL None k) st
                  = drop (Z.to_nat k) (sourceCards st)).
  { unfold selectDeck. cbn. destruct (0 <? k)%Z eqn:Hk.
    - apply Z.ltb_lt in Hk. apply slice_from. lia.
    - apply Z.ltb_ge in Hk. by replace (Z.to_nat k) with 0 by lia. }
  split; [done|]. by rewrite Hdeck, length_drop.
Qed.

(** X9: a limit cuts the deck selected without limit down to its first
    [limit] cards, so the deck never has more cards than the limit; a
    limit below zero instead takes that many cards off the end. *)
Theorem selectDeck_limit random m o k n st :
  selectDeck random (mkSettings m o (Some n) k) st
  = take (if (n <? 0)%Z
          then length (selectDeck random (mkSettings m o None k) st) - Z.to_nat (- n)
          else Z.to_nat n)
         (selectDeck random (mkSettings m o None k) st)
  ∧ ((0 ≤ n)%Z →
     length (selectDeck random (mkSettings m o (Some n) k) st) ≤ Z.to_nat n).
Proof.
  assert (Hdeck : selectDeck random (mkSettings m o (Some n) k) st
          = take (if (n <? 0)%Z
                  then length (selectDeck random (mkSettings m o None k) st)
                       - Z.to_nat (- n)
                  else Z.to_nat n)
                 (selectDeck random (mkSettings m o None k) st)).
  { unfold selectDeck. cbn [order limit startIndex]. apply slice_upto. }
  split; [done|]. intros Hn. rewrite Hdeck.
  replace (n <? 0)%Z with false by (symmetry; apply Z.ltb_ge; lia).
  rewrite length_take. lia.
Qed.

Lemma slice_sublist {T} start end_ (l : list T) : slice start end_ l `sublist_of` l.
Proof.
  unfold slice. etrans; [apply sublist_take|apply sublist_drop].
Qed.

Lemma sourceCards_sublist st : sourceCards st `sublist_of` allCards st.
Proof. unfold sourceCards. destruct (setupSource st); [done|apply sublist_filter]. Qed.

Lemma selectDeck_submseteq random newSettings st :
  (order newSettings = SEQUENTIAL →
     selectDeck random newSettings st `sublist_of` allCards st)
  ∧ selectDeck random newSettings st ⊆+ allCards st.
Proof.
  unfold selectDeck. pose proof (sourceCards_sublist st) as Hsrc.
  assert (Hshuffle : shuffleArray random (sourceCards st) ⊆+ allCards st).
  { etrans; [apply Permutation_submseteq, shuffleArray_Permutation|].
    by apply sublist_submseteq. }
  split.
  - intros ->. destruct (limit newSettings); repeat case_match;
      repeat (etrans; [apply slice_sublist|]); done.
  - destruct (order newSettings), (limit newSettings); repeat case_match;
      repeat (etrans; [apply sublist_submseteq, slice_sublist|]);
      done || by apply sublist_submseteq.
Qed.

Lemma NoDup_ids_submseteq (l1 l2 : list Card) :
  l1 ⊆+ l2 → NoDup (ids l2) → NoDup (ids l1).
Proof.
  intros Hsub Hnd.
  assert (Hids : ids l1 ⊆+ ids l2) by (unfold ids; by apply fmap_submseteq).
  apply submseteq_sublist_l in Hids as (k & Hk & Hperm).
  eapply sublist_NoDup; [|exact Hk]. by rewrite Hperm.
Qed.

(** X10: whatever the settings and the random source, the deck holds
    cards of the master list only, none more often than the master list
    does, so it is never longer than the master list and repeats no
    identifier when the master list repeats none; a sequential deck keeps
    the order of the master list. *)
Theorem selectDeck_keeps_cards random newSettings st :
  selectDeck random newSettings st ⊆+ allCards st
  ∧ length (selectDeck random newSettings st) ≤ length (allCards st)
  ∧ (NoDup (ids (allCards st)) → NoDup (ids (selectDeck random newSettings st)))
  ∧ (order newSettings = SEQUENTIAL →
       selectDeck random newSettings st `sublist_of` allCards st).
Proof.
  destruct (selectDeck_submseteq random newSettings st) as [Hseq Hsub].
  split; [done|]. split; [by apply submseteq_length|].
  split; [by apply NoDup_ids_submseteq|done].
Qed.

(** ** The play queue and the results in reachable states *)

Lemma parseCSV_NoDup text data : parseCSV text = Return data → NoDup (ids data).
Proof.
  rewrite parseCSV_records. intros [= <-].
  apply sorted_lt_NoDup, recordsOf_sorted.
Qed.

Lemma misses_positive k res r :
  r ∈ res → isCorrect r = false → cardId r = k → 0 < misses k res.
Proof.
  intros Hin Hr Hk. unfold misses.
  assert (Hf : r ∈ filter (λ r, isCorrect r = false ∧ cardId r = k) res)
    by (by apply list_elem_of_filter).
  destruct (filter _ res); [by apply elem_of_nil in Hf|cbn; lia].
Qed.

Lemma goNext_consistentGame correct inputVal st st' :
  currentScreen st = GAME →
  goNext correct inputVal st = Return st' →
  consistentGame st → consistentGame st'.
Proof.
  unfold goNext. intros Hscreen Hgo (Hall & Hqueue & Hgame & _).
  destruct (Hgame Hscreen) as [Hindex Hresults].
  destruct (playQueue st !! index st) as [currentCard|] eqn:Hcard; [|done].
  set (newResult := mkResult (id currentCard) correct _) in Hgo.
  assert (Hnext : map cardId (results st ++ [newResult])
                  = take (S (index st)) (ids (playQueue st))).
  { rewrite map_app, Hresults. cbn [map cardId newResult].
    symmetry. apply take_S_r. unfold ids. by rewrite list_lookup_fmap, Hcard. }
  destruct (index st + 1 <? length (playQueue st)) eqn:Hlast;
    injection Hgo as <-.
  - apply Nat.ltb_lt in Hlast. unfold consistentGame. cbn.
    rewrite Hscreen. split; [done|]. split; [done|]. split; [|done].
    intros _. split; [lia|]. by rewrite Nat.add_1_r.
  - apply Nat.ltb_ge in Hlast. unfold consistentGame, handleGameFinish. cbn.
    split; [done|]. split; [done|]. split; [done|]. intros _.
    split; [|split].
    + rewrite Hnext. apply take_ge. unfold ids. rewrite length_map. lia.
    + intros Hq. by rewrite Hq in Hcard.
    + intros r Hr Hwrong. rewrite missCount_updateHistory.
      pose proof (misses_positive (cardId r) _ r Hr Hwrong eq_refl). lia.
Qed.

Lemma step_consistentGame st st' :
  step st st' → consistentGame st → consistentGame st'.
Proof.
  intros Hstep Hst. pose proof Hst as (Hall & Hqueue & Hgame & Hresult).
  destruct Hstep as
    [text data st Hl Hparse|st Hl|st Hl Hs|st Hl Hs _|st Hl Hs|st Hl Hs
    |random newSettings st st' Hl Hs Hstart|random newSettings st st' Hl Hs Hstart
    |correct inputVal st st' Hl Hs Hgo|st Hl Hs|st Hl Hs|st Hl Hs|st Hl Hs|st Hl Hs];
    try (unfold consistentGame; cbn; by repeat split).
  - unfold consistentGame. cbn. split; [exact (parseCSV_NoDup _ _ Hparse)|].
    by split; [|split].
  - unfold handleStartGame in Hstart.
    destruct (length (selectDeck random newSettings st) =? 0) eqn:Hlen; [done|].
    injection Hstart as <-. apply Nat.eqb_neq in Hlen.
    unfold consistentGame. cbn. split; [done|]. split; [|split; [|done]].
    + eapply NoDup_ids_submseteq; [apply selectDeck_submseteq|done].
    + intros _. split; [lia|done].
  - unfold handleStartGame in Hstart.
    destruct (length (selectDeck random newSettings st) =? 0); [|done].
    injection Hstart as <-. unfold consistentGame. cbn. rewrite Hs.
    by repeat split.
  - by eapply goNext_consistentGame.
Qed.

Lemma reachable_consistentGame st : reachable st → consistentGame st.
Proof.
  unfold reachable. intros Hreach.
  eapply (rtc_ind_r (λ s, consistentGame s)); [| |exact Hreach].
  - unfold consistentGame, initialState. cbn. repeat split; try done; constructor.
  - intros s s' _ Hstep IH. by eapply step_consistentGame.
Qed.

Lemma runGame_reachable : reachable runGame.
Proof.
  unfold reachable.
  eapply rtc_l; [apply (step_loaded appleText appleCards); by vm_compute|].
  eapply rtc_l; [by apply step_start_all|].
  apply rtc_once.
  by apply (step_start_game zeroRandom runSettings
              (openSetup ALL (cardsLoaded appleCards initialState))
              (handleStartGame zeroRandom runSettings runSetup).1).
Qed.

Lemma runLoaded_runMissed : rtc step runLoaded runMissed.
Proof.
  eapply rtc_l; [by apply step_start_all|].
  eapply rtc_l;
    [by apply (step_start_game zeroRandom runSettings
                 (openSetup ALL (cardsLoaded appleCards initialState))
                 (handleStartGame zeroRandom runSettings runSetup).1)|].
  apply rtc_once. by apply (step_go_next false []).
Qed.

(** X11: in every reachable state no two cards of the master list share an
    identifier, and no two cards of the play queue do: a game never asks
    the same card twice. *)
Theorem reachable_ids_distinct st :
  reachable st → NoDup (ids (allCards st)) ∧ NoDup (ids (playQueue st)).
Proof. by intros (Hall & Hqueue & _)%reachable_consistentGame. Qed.

Lemma reachable_ids_distinct_witness : NoDup (ids (playQueue runMissed)).
Proof. exact (proj2 (reachable_ids_distinct runMissed runMissed_reachable)). Defined.

(** X12: in every reachable state that shows the game, the current index
    lies inside the play queue, the results collected so far are those of
    the cards before it, in queue order, and [goNext] returns: reading the
    current card never fails. *)
Theorem goNext_never_throws st correct inputVal :
  reachable st → currentScreen st = GAME →
  index st < length (playQueue st)
  ∧ map cardId (results st) = take (index st) (ids (playQueue st))
  ∧ ∃ st', goNext correct inputVal st = Return st'.
Proof.
  intros (_ & _ & Hgame & _)%reachable_consistentGame Hscreen.
  destruct (Hgame Hscreen) as [Hindex Hresults]. split; [done|]. split; [done|].
  unfold goNext.
  destruct (lookup_lt_is_Some_2 (playQueue st) (index st) Hindex) as [c ->].
  destruct (index st + 1 <? length (playQueue st)); eauto.
Qed.

Lemma goNext_never_throws_witness : ∃ st', goNext true [] runGame = Return st'.
Proof.
  exact (proj2 (proj2 (goNext_never_throws runGame true [] runGame_reachable
                         eq_refl))).
Defined.

(** X13: in every reachable state that shows the result screen, the game
    results are one per card of the play queue, in queue order; there is
    at least one, and the counts of correct and of wrong answers shown add
    up to the number of cards played. *)
Theorem result_screen_complete st :
  reachable st → currentScreen st = RESULT →
  map cardId (gameResults st) = ids (playQueue st)
  ∧ 0 < length (gameResults st)
  ∧ resultWrongCount (gameResults st) + correctCount (gameResults st)
    = length (playQueue st).
Proof.
  intros (_ & _ & _ & Hresult)%reachable_consistentGame Hscreen.
  destruct (Hresult Hscreen) as (Hids & Hne & _).
  assert (Hlen : length (gameResults st) = length (playQueue st)).
  { rewrite <- (length_map cardId), Hids. unfold ids. by rewrite length_map. }
  split; [done|]. split.
  - rewrite Hlen. destruct (playQueue st); [done|cbn; lia].
  - unfold resultWrongCount, correctCount. rewrite <- Hlen.
    pose proof (length_filter (λ r, isCorrect r = true) (gameResults st)). lia.
Qed.

Lemma result_screen_complete_witness :
  map cardId (gameResults runMissed) = ids (playQueue runMissed).
Proof.
  exact (proj1 (result_screen_complete runMissed runMissed_reachable eq_refl)).
Defined.

Lemma resultWrongCount_positive res :
  0 < resultWrongCount res → ∃ r, r ∈ res ∧ isCorrect r = false.
Proof.
  unfold resultWrongCount, correctCount. induction res as [|r res IH]; cbn [length].
  - lia.
  - rewrite filter_cons. destruct (isCorrect r) eqn:Hr.
    + rewrite decide_True by done. cbn [length]. intros H.
      destruct IH as (r' & Hin & Hr'); [lia|]. exists r'. split; [by right|done].
    + intros _. exists r. split; [left|done].
Qed.

(** X14: when the result screen counts at least one wrong answer, so that
    it offers the review, a review game with random order and no limit
    (the settings the setup screen starts with) does start: the deck of
    missed cards is not empty and no alert is raised. *)
Theorem review_after_miss st random m k :
  reachable st → currentScreen st = RESULT →
  0 < resultWrongCount (gameResults st) →
  ∃ st', handleStartGame random (mkSettings m RANDOM None k) (openSetup WRONG st)
         = (st', NoEffect)
         ∧ currentScreen st' = GAME
         ∧ playQueue st' ≡ₚ sourceCards (openSetup WRONG st)
         ∧ playQueue st' ≠ [].
Proof.
  intros Hreach Hscreen Hwrong.
  pose proof (reachable_consistent st Hreach) as (_ & _ & _ & Hpq & _).
  pose proof (reachable_consistentGame st Hreach) as (_ & _ & _ & Hresult).
  destruct (Hresult Hscreen) as (Hids & _ & Hmiss).
  destruct (resultWrongCount_positive _ Hwrong) as (r & Hr & Hfalse).
  assert (Hid : cardId r ∈ ids (playQueue st)).
  { rewrite <- Hids. apply list_elem_of_fmap. by exists r. }
  apply list_elem_of_fmap in Hid as (c & Hc & Hin).
  assert (Hsrc : c ∈ sourceCards (openSetup WRONG st)).
  { unfold sourceCards. cbn. apply list_elem_of_filter. split.
    - rewrite <- Hc. by apply Hmiss.
    - by apply Hpq. }
  set (deck := selectDeck random (mkSettings m RANDOM None k) (openSetup WRONG st)).
  assert (Hperm : deck ≡ₚ sourceCards (openSetup WRONG st)).
  { subst deck. unfold selectDeck. cbn [order limit]. apply shuffleArray_Permutation. }
  assert (Hne : deck ≠ []).
  { intros Hnil. rewrite Hnil in Hperm. apply Permutation_nil_l in Hperm.
    rewrite <- Hperm in Hsrc. by apply elem_of_nil in Hsrc. }
  eexists. split; [by apply handleStartGame_starts|]. by cbn.
Qed.

Lemma review_after_miss_witness :
  ∃ st', handleStartGame zeroRandom (mkSettings FLASHCARD RANDOM None 0)
           (openSetup WRONG runMissed) = (st', NoEffect)
         ∧ currentScreen st' = GAME
         ∧ playQueue st' ≡ₚ sourceCards (openSetup WRONG runMissed)
         ∧ playQueue st' ≠ [].
Proof.
  apply (review_after_miss runMissed zeroRandom FLASHCARD 0 runMissed_reachable);
    [reflexivity|by vm_compute].
Defined.

Lemma greaterThanZero_missCount (h : gmap nat nat) k :
  greaterThanZero (h !! k) = true ↔ 0 < missCount h k.
Proof.
  unfold greaterThanZero, missCount. destruct (h !! k) as [n|]; cbn [from_option].
  - apply Nat.ltb_lt.
  - split; [done|]. unfold Datatypes.id. lia.
Qed.

Lemma wrongCards_sourceCards st : wrongCards st = sourceCards (openSetup WRONG st).
Proof.
  unfold wrongCards, sourceCards. cbn.
  apply list_filter_iff. intros c. apply greaterThanZero_missCount.
Qed.

(** X15: in every reachable state the number of missed cards the menu
    shows (the number of keys of the miss-count table) is the number of
    cards on the list of missed cards, and that list is the deck a review
    selects from. *)
Theorem menu_count_is_review_size st :
  reachable st →
  menuWrongCount st = length (wrongCards st)
  ∧ wrongCards st = sourceCards (openSetup WRONG st).
Proof.
  intros Hreach. split; [|apply wrongCards_sourceCards].
  pose proof (reachable_consistent st Hreach) as (_ & Hdom & Hpos & _).
  pose proof (reachable_consistentGame st Hreach) as (Hall & _).
  rewrite wrongCards_sourceCards. unfold menuWrongCount, sourceCards. cbn.
  set (review := filter _ (allCards st)).
  assert (Hperm : ids review ≡ₚ elements (dom (wrongHistory st))).
  { apply NoDup_Permutation.
    - eapply NoDup_ids_submseteq; [|exact Hall].
      apply sublist_submseteq, sublist_filter.
    - apply NoDup_elements.
    - intros k. rewrite elem_of_elements, elem_of_dom. unfold ids.
      rewrite list_elem_of_fmap. split.
      + intros (c & -> & Hc). apply list_elem_of_filter in Hc as [Hc _].
        unfold missCount in Hc.
        destruct (wrongHistory st !! id c); [done|cbn in Hc; lia].
      + intros [n Hn].
        assert (Hk : k ∈ ids (allCards st)) by (apply Hdom, elem_of_dom; eauto).
        apply list_elem_of_fmap in Hk as (c & -> & Hc).
        exists c. split; [done|]. apply list_elem_of_filter. split; [|done].
        unfold missCount. rewrite Hn. cbn. by eapply Hpos. }
  rewrite <- size_dom. unfold size, set_size. cbn.
  rewrite <- Hperm. unfold ids. by rewrite length_map.
Qed.

Lemma menu_count_is_review_size_witness :
  menuWrongCount runMissed = length (wrongCards runMissed).
Proof.
  exact (proj1 (menu_count_is_review_size runMissed runMissed_reachable)).
Defined.

Lemma step_missCount st st' k :
  step st st' → missCount (wrongHistory st) k ≤ missCount (wrongHistory st') k.
Proof.
  intros Hstep.
  destruct Hstep as
    [text data st Hl Hparse|st Hl|st Hl Hs|st Hl Hs _|st Hl Hs|st Hl Hs
    |random newSettings st st' Hl Hs Hstart|random newSettings st st' Hl Hs Hstart
    |correct inputVal st st' Hl Hs Hgo|st Hl Hs|st Hl Hs|st Hl Hs|st Hl Hs|st Hl Hs];
    try done.
  - unfold handleStartGame in Hstart.
    destruct (length (selectDeck random newSettings st) =? 0); by injection Hstart as <-.
  - unfold handleStartGame in Hstart.
    destruct (length (selectDeck random newSettings st) =? 0); by injection Hstart as <-.
  - unfold goNext in Hgo. destruct (playQueue st !! index st); [|done].
    destruct (index st + 1 <? length (playQueue st)); injection Hgo as <-; [done|].
    unfold handleGameFinish. cbn. rewrite missCount_updateHistory. lia.
Qed.

(** X16: no interaction ever lowers a miss count: along every run of the
    application the count of every card stays or grows, so a card once on
    the list of missed cards stays on it. *)
Theorem misses_never_decrease st st' k :
  rtc step st st' → missCount (wrongHistory st) k ≤ missCount (wrongHistory st') k.
Proof.
  induction 1 as [|s1 s2 s3 Hstep _ IH]; [done|].
  pose proof (step_missCount s1 s2 k Hstep). lia.
Qed.

Lemma misses_never_decrease_witness :
  missCount (wrongHistory runLoaded) 1 ≤ missCount (wrongHistory runMissed) 1.
Proof. exact (misses_never_decrease runLoaded runMissed 1 runLoaded_runMissed). Defined.

Lemma step_cards_fixed st st' :
  step st st' → loading st = false →
  allCards st' = allCards st ∧ loading st' = false.
Proof.
  intros Hstep Hloaded.
  destruct Hstep as
    [text data st Hl Hparse|st Hl|st Hl Hs|st Hl Hs _|st Hl Hs|st Hl Hs
    |random newSettings st st' Hl Hs Hstart|random newSettings st st' Hl Hs Hstart
    |correct inputVal st st' Hl Hs Hgo|st Hl Hs|st Hl Hs|st Hl Hs|st Hl Hs|st Hl Hs];
    try done.
  - congruence.
  - unfold handleStartGame in Hstart.
    destruct (length (selectDeck random newSettings st) =? 0); by injection Hstart as <-.
  - unfold handleStartGame in Hstart.
    destruct (length (selectDeck random newSettings st) =? 0); by injection Hstart as <-.
  - unfold goNext in Hgo. destruct (playQueue st !! index st); [|done].
    destruct (index st + 1 <? length (playQueue st)); by injection Hgo as <-.
Qed.

(** X17: once the cards are loaded the master list never changes again and
    the application never goes back to loading, whatever the user does. *)
Theorem cards_fixed_once_loaded st st' :
  rtc step st st' → loading st = false →
  allCards st' = allCards st ∧ loading st' = false.
Proof.
  induction 1 as [|s1 s2 s3 Hstep _ IH]; [done|]. intros Hl.
  destruct (step_cards_fixed s1 s2 Hstep Hl) as [Hcards Hl2].
  destruct (IH Hl2) as [Hcards3 Hl3]. split; [congruence|done].
Qed.

Lemma cards_fixed_once_loaded_witness : allCards runMissed = allCards runLoaded.
Proof.
  exact (proj1 (cards_fixed_once_loaded runLoaded runMissed runLoaded_runMissed
                  eq_refl)).
Defined.

Lemma play_from answers : ∀ st,
  index st < length (playQueue st) →
  length answers = length (playQueue st) - index st →
  play answers st
  = Return (mkApp (allCards st) (loading st) RESULT
              (updateHistory (wrongHistory st)
                 (results st ++ resultsOf (mode (settings st))
                                  (drop (index st) (playQueue st)) answers))
              (playQueue st)
              (results st ++ resultsOf (mode (settings st))
                               (drop (index st) (playQueue st)) answers)
              (setupSource st) (settings st) (length (playQueue st) - 1)
              (results st ++ resultsOf (mode (settings st))
                               (drop (index st) (playQueue st)) answers)).
Proof.
  induction answers as [|[correct inputVal] answers IH]; intros st Hindex Hlen.
  - cbn in Hlen. lia.
  - cbn [play]. unfold goNext.
    destruct (lookup_lt_is_Some_2 (playQueue st) (index st) Hindex) as [c Hc].
    rewrite Hc. rewrite (drop_S _ c _ Hc). cbn [length] in Hlen.
    destruct (index st + 1 <? length (playQueue st)) eqn:Hlast.
    + apply Nat.ltb_lt in Hlast. rewrite IH; cbn; [|lia|lia].
      rewrite <- !app_assoc. cbn. by rewrite Nat.add_1_r.
    + apply Nat.ltb_ge in Hlast. destruct answers; [|cbn in Hlen; lia].
      cbn. unfold handleGameFinish. cbn. unfold resultsOf. cbn.
      rewrite zip_with_nil_r. do 2 f_equal. lia.
Qed.

(** X18: a game played to its end: from a freshly mounted game, as many
    answers as the queue has cards end on the result screen without any
    failure, with one result per card in queue order, each carrying the
    answer given (and, in typed-answer mode only, the text typed), and with
    the miss counts updated by exactly these results. *)
Theorem play_whole_game answers st :
  index st = 0 → results st = [] → playQueue st ≠ [] →
  length answers = length (playQueue st) →
  play answers st
  = Return (mkApp (allCards st) (loading st) RESULT
              (updateHistory (wrongHistory st)
                 (resultsOf (mode (settings st)) (playQueue st) answers))
              (playQueue st)
              (resultsOf (mode (settings st)) (playQueue st) answers)
              (setupSource st) (settings st) (length (playQueue st) - 1)
              (resultsOf (mode (settings st)) (playQueue st) answers)).
Proof.
  intros Hi Hr Hq Hlen. rewrite play_from.
  - by rewrite Hi, Hr, drop_0.
  - rewrite Hi. destruct (playQueue st); [done|cbn; lia].
  - rewrite Hi. lia.
Qed.

Lemma play_whole_game_witness : play [(false, [])] runGame = Return runMissed.
Proof.
  rewrite (play_whole_game [(false, [])] runGame eq_refl eq_refl
             ltac:(discriminate) eq_refl).
  reflexivity.
Defined.

(** ** The [Home] component: reachable states *)

Lemma Home_parseCSV text : Home.parseCSV text = parseCSV text.
Proof.
  unfold Home.parseCSV, parseCSV. by rewrite Home_parseRows, Home_data_loop.
Qed.

Lemma Home_view_card st :
  Home.view st = Home.CardView →
  Home.loading st = false ∧ Home.isFinished st = false ∧ Home.playCards st ≠ [].
Proof.
  unfold Home.view. destruct (Home.loading st); [done|].
  destruct (Home.isFinished st).
  - rewrite andb_false_r. done.
  - rewrite andb_true_r. destruct (Home.playCards st); done.
Qed.

Lemma Home_view_finished st :
  Home.view st = Home.FinishedView →
  Home.loading st = false ∧ Home.isFinished st = true.
Proof.
  unfold Home.view. destruct (Home.loading st); [done|].
  destruct (Home.isFinished st); [done|].
  rewrite andb_true_r. by destruct (length (Home.playCards st) =? 0).
Qed.

Lemma Home_goNext_consistent st :
  Home.loading st = false → Home.playCards st ≠ [] →
  consistentHome st → consistentHome (Home.goNext st).
Proof.
  intros Hl Hne (_ & Hnd & Hsub & Hwrong & Hidx & Hfin).
  specialize (Hidx Hne). unfold Home.goNext.
  destruct (Home.currentIndex st + 1 <? length (Home.playCards st)) eqn:Hlast.
  - apply Nat.ltb_lt in Hlast. unfold consistentHome. cbn. rewrite Hl.
    do 4 (split; [done|]).
    split; [intros _; lia|intros Hf; specialize (Hfin Hf); lia].
  - apply Nat.ltb_ge in Hlast. unfold consistentHome. cbn. rewrite Hl.
    do 4 (split; [done|]). split; intros _; lia.
Qed.

Ltac home_split :=
  unfold consistentHome; cbn;
  refine (conj _ (conj _ (conj _ (conj _ (conj _ _))))).

Lemma Home_step_consistent st st' :
  Home.step st st' → consistentHome st → consistentHome st'.
Proof.
  intros Hstep Hst. pose proof Hst as (Hinit & Hnd & Hsub & Hwrong & Hidx & Hfin).
  destruct Hstep as
    [text data st Hl Hparse|st Hl|st Hv Hshow|st st' Hv Hshow Hc|st st' Hv Hshow Hw
    |st Hv Hi|st Hv|st Hv Hsize|st Hv].
  - rewrite (Hinit Hl). rewrite Home_parseCSV in Hparse. home_split; try done.
    + exact (parseCSV_NoDup _ _ Hparse).
    + intros Hne. destruct data; [done|cbn; lia].
  - rewrite (Hinit Hl). home_split; try done. constructor.
  - apply Home_view_card in Hv as (Hl & Hf & Hne).
    home_split; try done; try (by rewrite Hl).
  - apply Home_view_card in Hv as (Hl & Hf & Hne).
    unfold Home.handleCorrect in Hc.
    destruct (Home.playCards st !! Home.currentIndex st) as [card|]; [|done].
    injection Hc as <-. apply Home_goNext_consistent.
    + by case_bool_decide.
    + by case_bool_decide.
    + case_bool_decide; [|done]. home_split; try done; try (by rewrite Hl).
      intros k [Hk _]%elem_of_difference. by apply Hwrong.
  - apply Home_view_card in Hv as (Hl & Hf & Hne).
    unfold Home.handleWrong in Hw.
    destruct (Home.playCards st !! Home.currentIndex st) as [card|] eqn:Hcard; [|done].
    injection Hw as <-. apply Home_goNext_consistent; [done|done|].
    home_split; try done; try (by rewrite Hl).
    intros k [Hk| ->%elem_of_singleton]%elem_of_union; [by apply Hwrong|].
    apply list_elem_of_fmap. exists card. split; [done|].
    apply Hsub. by eapply list_elem_of_lookup_2.
  - apply Home_view_card in Hv as (Hl & Hf & Hne). specialize (Hidx Hne).
    unfold Home.goBack. destruct (0 <? Home.currentIndex st); [|done].
    home_split; try done; try (by rewrite Hl). intros _; lia.
  - apply Home_view_finished in Hv as (Hl & Hf). specialize (Hfin Hf).
    unfold Home.goBack. destruct (0 <? Home.currentIndex st); [|done].
    home_split; try done; try (by rewrite Hl). intros _; lia.
  - apply Home_view_finished in Hv as (Hl & Hf).
    home_split; try done; try (by rewrite Hl).
    + intros c Hc. by apply list_elem_of_filter in Hc as [_ Hc].
    + intros Hne. destruct (filter _ (Home.allCards st)); [done|cbn; lia].
  - apply Home_view_finished in Hv as (Hl & Hf).
    home_split; try done; try (by rewrite Hl).
    intros Hne. destruct (Home.allCards st); [done|cbn; lia].
Qed.

Lemma Home_reachable_consistent st : Home.reachable st → consistentHome st.
Proof.
  unfold Home.reachable. intros Hreach.
  eapply (rtc_ind_r (λ s, consistentHome s)); [| |exact Hreach].
  - unfold consistentHome, Home.initialState. cbn.
    repeat split; try done. constructor.
  - intros s s' _ Hstep IH. by eapply Home_step_consistent.
Qed.

Lemma homeLoaded_reachable : Home.reachable homeLoaded.
Proof.
  apply rtc_once. apply (Home.step_fetched appleText appleCards); by vm_compute.
Qed.

Lemma homeFinished_reachable : Home.reachable homeFinished.
Proof.
  unfold Home.reachable.
  eapply rtc_l; [apply (Home.step_fetched appleText appleCards); by vm_compute|].
  eapply rtc_l; [by apply Home.step_reveal|].
  apply rtc_once. apply Home.step_wrong; [done|done|].
  unfold Home.handleWrong. cbn. by do 2 f_equal.
Qed.

(** X19: in every reachable state of [Home] that shows a card, the current
    card exists and is a card of the master list, so the view can read it
    and neither answer button can fail. *)
Theorem Home_card_view_safe st :
  Home.reachable st → Home.view st = Home.CardView →
  ∃ card,
    Home.currentCard st = Some card
    ∧ card ∈ Home.allCards st
    ∧ (∃ st', Home.handleCorrect st = Return st')
    ∧ (∃ st', Home.handleWrong st = Return st').
Proof.
  intros (_ & _ & Hsub & _ & Hidx & _)%Home_reachable_consistent
         (_ & _ & Hne)%Home_view_card.
  destruct (lookup_lt_is_Some_2 _ _ (Hidx Hne)) as [card Hcard].
  exists card. unfold Home.currentCard, Home.handleCorrect, Home.handleWrong.
  rewrite Hcard. split; [done|]. split; [|eauto].
  apply Hsub. by eapply list_elem_of_lookup_2.
Qed.

Lemma Home_card_view_safe_witness :
  ∃ card, Home.currentCard homeLoaded = Some card
          ∧ card ∈ Home.allCards homeLoaded
          ∧ (∃ st', Home.handleCorrect homeLoaded = Return st')
          ∧ (∃ st', Home.handleWrong homeLoaded = Return st').
Proof. exact (Home_card_view_safe homeLoaded homeLoaded_reachable eq_refl). Defined.

(** X20: in every reachable state of [Home] the set of wrong identifiers
    holds identifiers of loaded cards only, the cards in play are cards of
    the master list, and no two cards of the master list share an
    identifier. *)
Theorem Home_wrongIds_are_card_ids st :
  Home.reachable st →
  Home.wrongIds st ⊆ (list_to_set (ids (Home.allCards st)) : gset nat)
  ∧ Home.playCards st ⊆ Home.allCards st
  ∧ NoDup (ids (Home.allCards st)).
Proof.
  intros (_ & Hnd & Hsub & Hwrong & _)%Home_reachable_consistent.
  split; [|done]. intros k Hk. apply elem_of_list_to_set. by apply Hwrong.
Qed.

Lemma Home_wrongIds_are_card_ids_witness :
  Home.wrongIds homeFinished
  ⊆ (list_to_set (ids (Home.allCards homeFinished)) : gset nat).
Proof.
  exact (proj1 (Home_wrongIds_are_card_ids homeFinished homeFinished_reachable)).
Defined.

(** X21: in every reachable state of [Home] the retry deck has exactly as
    many cards as the set of wrong identifiers has elements (the number
    the retry button shows), and it consists of the cards of the master
    list whose identifier is in the set. *)
Theorem Home_retry_deck_size st :
  Home.reachable st →
  length (Home.playCards (Home.startRetry st)) = size (Home.wrongIds st)
  ∧ ∀ card, card ∈ Home.playCards (Home.startRetry st)
            ↔ card ∈ Home.allCards st ∧ id card ∈ Home.wrongIds st.
Proof.
  intros (_ & Hnd & _ & Hwrong & _)%Home_reachable_consistent.
  unfold Home.startRetry. cbn. split.
  - set (retry := filter _ (Home.allCards st)).
    assert (Hperm : ids retry ≡ₚ elements (Home.wrongIds st)).
    { apply NoDup_Permutation.
      - eapply NoDup_ids_submseteq; [|exact Hnd].
        apply sublist_submseteq, sublist_filter.
      - apply NoDup_elements.
      - intros k. rewrite elem_of_elements. unfold ids.
        rewrite list_elem_of_fmap. split.
        + intros (c & -> & Hc). by apply list_elem_of_filter in Hc as [Hc _].
        + intros Hk. pose proof (Hwrong k Hk) as Hin.
          apply list_elem_of_fmap in Hin as (c & -> & Hc).
          exists c. split; [done|]. by apply list_elem_of_filter. }
    unfold size, set_size. cbn. rewrite <- Hperm. unfold ids. by rewrite length_map.
  - intros card. rewrite list_elem_of_filter. tauto.
Qed.

Lemma Home_retry_deck_size_witness :
  length (Home.playCards (Home.startRetry homeFinished))
  = size (Home.wrongIds homeFinished).
Proof.
  exact (proj1 (Home_retry_deck_size homeFinished homeFinished_reachable)).
Defined.

Ltac home_fields :=
  cbn [Home.allCards Home.playCards Home.currentIndex Home.showAnswer
       Home.loading Home.wrongIds Home.isFinished].

(** X22: marking a card wrong puts its identifier in the set; going back
    and marking it correct takes the identifier out again, whether or not
    it was in the set before, and leaves the component on the next card:
    the last answer given for a card decides.  (This holds for every card
    but the last of the deck, where the index does not advance.) *)
Theorem Home_wrong_back_correct st card :
  Home.currentCard st = Some card →
  Home.currentIndex st + 1 < length (Home.playCards st) →
  ∃ s1 s2,
    Home.handleWrong st = Return s1
    ∧ id card ∈ Home.wrongIds s1
    ∧ Home.handleCorrect (Home.goBack s1) = Return s2
    ∧ Home.wrongIds s2 = Home.wrongIds st ∖ {[id card]}
    ∧ Home.currentIndex s2 = Home.currentIndex st + 1.
Proof.
  unfold Home.currentCard. intros Hcard Hnext.
  assert (Hlt : (Home.currentIndex st + 1 <? length (Home.playCards st)) = true)
    by by apply Nat.ltb_lt.
  assert (Hin : id card ∈ Home.wrongIds st ∪ {[id card]})
    by by apply elem_of_union_r, elem_of_singleton_2.
  set (s1 := Home.mkHome (Home.allCards st) (Home.playCards st)
               (Home.currentIndex st + 1) false (Home.loading st)
               (Home.wrongIds st ∪ {[id card]}) (Home.isFinished st)).
  set (s2 := Home.mkHome (Home.allCards st) (Home.playCards st)
               (Home.currentIndex st + 1) false (Home.loading st)
               ((Home.wrongIds st ∪ {[id card]}) ∖ {[id card]}) false).
  exists s1, s2.
  assert (H1 : Home.handleWrong st = Return s1).
  { unfold Home.handleWrong, Home.goNext. rewrite Hcard. home_fields.
    by rewrite Hlt. }
  assert (Hback : Home.goBack s1
                  = Home.mkHome (Home.allCards st) (Home.playCards st)
                      (Home.currentIndex st) false (Home.loading st)
                      (Home.wrongIds st ∪ {[id card]}) false).
  { unfold Home.goBack, s1. cbn [Home.currentIndex].
    replace (0 <? Home.currentIndex st + 1) with true
      by (symmetry; apply Nat.ltb_lt; lia).
    home_fields. f_equal. lia. }
  assert (H2 : Home.handleCorrect (Home.goBack s1) = Return s2).
  { rewrite Hback. unfold Home.handleCorrect, Home.goNext. home_fields.
    rewrite Hcard. rewrite bool_decide_eq_true_2 by done. home_fields.
    by rewrite Hlt. }
  split; [done|]. split; [done|]. split; [done|]. split; [|done].
  subst s2. home_fields. apply set_eq. intros k.
  rewrite !elem_of_difference, elem_of_union, elem_of_singleton. tauto.
Qed.

Lemma Home_wrong_back_correct_witness :
  ∃ s1 s2,
    Home.handleWrong homeTwo = Return s1
    ∧ 1 ∈ Home.wrongIds s1
    ∧ Home.handleCorrect (Home.goBack s1) = Return s2
    ∧ Home.wrongIds s2 = Home.wrongIds homeTwo ∖ {[1]}
    ∧ Home.currentIndex s2 = Home.currentIndex homeTwo + 1.
Proof.
  apply (Home_wrong_back_correct homeTwo (mkCard 1 (js "Apple") ringo));
    [reflexivity|cbn; lia].
Defined.

(** X23: from the finish screen of [Home], the button that goes back
    leads to the card before the last one of the deck, not to the last
    one; on a deck of one card it changes nothing, and the finish screen
    stays. *)
Theorem Home_back_from_finish st :
  Home.reachable st → Home.view st = Home.FinishedView →
  (length (Home.playCards st) = 1 → Home.goBack st = st)
  ∧ (1 < length (Home.playCards st) →
       Home.view (Home.goBack st) = Home.CardView
       ∧ Home.currentIndex (Home.goBack st) = length (Home.playCards st) - 2).
Proof.
  intros (_ & _ & _ & _ & _ & Hfin)%Home_reachable_consistent
         (Hl & Hf)%Home_view_finished.
  specialize (Hfin Hf). unfold Home.goBack. split.
  - intros Hone. replace (Home.currentIndex st) with 0 by lia. done.
  - intros Hmany. replace (0 <? Home.currentIndex st) with true
      by (symmetry; apply Nat.ltb_lt; lia).
    unfold Home.view. cbn. rewrite Hl.
    destruct (Home.playCards st); [cbn in Hmany; lia|]. cbn in *. split; [done|lia].
Qed.

Lemma Home_back_from_finish_witness : Home.goBack homeFinished = homeFinished.
Proof.
  exact (proj1 (Home_back_from_finish homeFinished homeFinished_reachable eq_refl)
               eq_refl).
Defined.
